(** * Servo arm positioning for a guitar-fretting mechanism

    A shallow embedding of [servo_motor_positioning.py] and the properties of
    its fret geometry, linkage solver and fret matcher.

    Numbers.  A Python [float] that the script computes from its constants is
    a real number: rounding, overflow and signed zeros are left out, so every
    statement below is about the exact value of the formula the code
    evaluates.  A numpy [float64] scalar is a [float64]: a real number, an
    infinity or nan, because numpy's arithmetic answers a zero divisor or an
    argument outside a function's domain with [inf] or [nan] (and a
    RuntimeWarning) where plain Python raises.

    Control.  A Python call returns [Ok v] or raises, [Raise e]; a list
    comprehension evaluates its elements from left to right and stops at the
    first exception. *)

From Stdlib Require Import Reals Lra Lia List ZArith Bool Zfloor Sorted.
Import ListNotations.

Local Open Scope R_scope.

(** ** Python: exceptions, calls, builtins *)

Inductive exn : Set :=
| ValueError
| IndexError
| ZeroDivisionError.

Inductive result (A : Type) : Type :=
| Ok (v : A)
| Raise (err : exn).

Arguments Ok {A} v.
Arguments Raise {A} err.

Definition bind {A B : Type} (r : result A) (k : A -> result B) : result B :=
  match r with
  | Ok v => k v
  | Raise err => Raise err
  end.

Notation "x <- r ;; k" := (bind r (fun x => k))
  (at level 61, r at next level, right associativity).

(** [[body for x in l]]: the elements are evaluated in order. *)
Fixpoint comprehension {A B : Type} (body : A -> result B) (l : list A)
  : result (list B) :=
  match l with
  | [] => Ok []
  | x :: l' => y <- body x ;; ys <- comprehension body l' ;; Ok (y :: ys)
  end.

(** [enumerate(l)] *)
Definition enumerate {A : Type} (l : list A) : list (nat * A) :=
  combine (seq 0 (length l)) l.

(** [l[i]] for an index [i >= 0]. *)
Definition getitem {A : Type} (l : list A) (i : nat) : result A :=
  match nth_error l i with
  | Some v => Ok v
  | None => Raise IndexError
  end.

(** [x / y] on Python floats: a zero divisor raises. *)
Definition py_div (x y : R) : result R :=
  if Req_dec_T y 0 then Raise ZeroDivisionError else Ok (x / y).

(** [int(x)] on a Python float: truncation towards zero. *)
Definition py_int (x : R) : Z :=
  if Rle_dec 0 x then Zfloor x else Zceil x.

(** [range(start, stop, step)], as the list of the values it yields. *)
Definition range_length (start stop step : Z) : Z :=
  if (0 <? step)%Z then
    if (start <? stop)%Z then (stop - start - 1) / step + 1 else 0
  else
    if (stop <? start)%Z then (start - stop - 1) / (- step) + 1 else 0.

Definition py_range (start stop step : Z) : result (list Z) :=
  if (step =? 0)%Z then Raise ValueError
  else Ok (map (fun k => (start + step * Z.of_nat k)%Z)
               (seq 0 (Z.to_nat (range_length start stop step)))).

(** ** numpy float64 scalars *)

Inductive float64 : Type :=
| Num (x : R)
| Inf (negative : bool)
| NaN.

Definition Rltb (x y : R) : bool := if Rlt_dec x y then true else false.
Definition Rleb (x y : R) : bool := if Rle_dec x y then true else false.

(** [x < y] and [x <= y]: every comparison with nan is false. *)
Definition np_lt (x y : float64) : bool :=
  match x, y with
  | Num u, Num v => Rltb u v
  | Num _, Inf negative => negb negative
  | Inf negative, Num _ => negative
  | Inf n1, Inf n2 => n1 && negb n2
  | _, _ => false
  end.

Definition np_le (x y : float64) : bool :=
  match x, y with
  | Num u, Num v => Rleb u v
  | Num _, Inf negative => negb negative
  | Inf negative, Num _ => negative
  | Inf n1, Inf n2 => n1 || negb n2
  | _, _ => false
  end.

(** [x == y] *)
Definition np_eq (x y : float64) : Prop :=
  match x, y with
  | Num u, Num v => u = v
  | Inf n1, Inf n2 => n1 = n2
  | _, _ => False
  end.

Definition np_abs (x : float64) : float64 :=
  match x with
  | Num u => Num (Rabs u)
  | Inf _ => Inf false
  | NaN => NaN
  end.

Definition np_opp (x : float64) : float64 :=
  match x with
  | Num u => Num (- u)
  | Inf negative => Inf (negb negative)
  | NaN => NaN
  end.

Definition np_add (x y : float64) : float64 :=
  match x, y with
  | Num u, Num v => Num (u + v)
  | Num _, Inf n => Inf n
  | Inf n, Num _ => Inf n
  | Inf n1, Inf n2 => if eqb n1 n2 then Inf n1 else NaN
  | _, _ => NaN
  end.

Definition np_sub (x y : float64) : float64 := np_add x (np_opp y).

(** An infinity times or over a finite [u]: the sign follows [u]'s, and a
    product with zero is nan. *)
Definition scale_inf (negative : bool) (u : R) : float64 :=
  if Rlt_dec 0 u then Inf negative
  else if Rlt_dec u 0 then Inf (negb negative)
  else NaN.

Definition np_mul (x y : float64) : float64 :=
  match x, y with
  | Num u, Num v => Num (u * v)
  | Num u, Inf n => scale_inf n u
  | Inf n, Num v => scale_inf n v
  | Inf n1, Inf n2 => Inf (xorb n1 n2)
  | _, _ => NaN
  end.

(** [x / y]: no exception; a zero divisor gives an infinity, or nan for
    [0 / 0] (the zero divisor is taken as [+0.0]). *)
Definition np_div (x y : float64) : float64 :=
  match x, y with
  | Num u, Num v => if Req_dec_T v 0 then scale_inf false u else Num (u / v)
  | Num _, Inf _ => Num 0
  | Inf n, Num v => if Rlt_dec v 0 then Inf (negb n) else Inf n
  | _, _ => NaN
  end.

(** [np.deg2rad], [np.rad2deg] *)
Definition np_deg2rad (x : float64) : float64 := np_mul x (Num (PI / 180)).
Definition np_rad2deg (x : float64) : float64 := np_mul x (Num (180 / PI)).

(** [np.sin], [np.cos]: nan at an infinity. *)
Definition np_sin (x : float64) : float64 :=
  match x with
  | Num u => Num (sin u)
  | _ => NaN
  end.

Definition np_cos (x : float64) : float64 :=
  match x with
  | Num u => Num (cos u)
  | _ => NaN
  end.

(** [np.arcsin]: nan outside [[-1, 1]]. *)
Definition np_arcsin (x : float64) : float64 :=
  match x with
  | Num u => if Rle_dec (-1) u then if Rle_dec u 1 then Num (asin u) else NaN
             else NaN
  | _ => NaN
  end.

(** [np.log2]: [-inf] at zero, nan below it. *)
Definition log2 (u : R) : R := ln u / ln 2.

Definition np_log2 (x : float64) : float64 :=
  match x with
  | Num u => if Rlt_dec 0 u then Num (log2 u)
             else if Rlt_dec u 0 then NaN
             else Inf true
  | Inf negative => if negative then NaN else Inf false
  | NaN => NaN
  end.

(** [x ** 2] and [x ** (1 / 2)] on a float64: the power of a negative number
    to one half is nan. *)
Definition np_square (x : float64) : float64 := np_mul x x.

Definition np_pow_half (x : float64) : float64 :=
  match x with
  | Num u => if Rle_dec 0 u then Num (sqrt u) else NaN
  | Inf _ => Inf false
  | NaN => NaN
  end.

(** [min(l, key=key)]: the first item is the best so far, and a later item
    replaces it when its key is strictly smaller; an empty [l] raises. *)
Fixpoint min_scan {A : Type} (key : A -> result float64)
    (best : A) (best_key : float64) (l : list A) : result A :=
  match l with
  | [] => Ok best
  | x :: l' =>
      k <- key x ;;
      if np_lt k best_key then min_scan key x k l'
      else min_scan key best best_key l'
  end.

Definition py_min {A : Type} (key : A -> result float64) (l : list A)
  : result A :=
  match l with
  | [] => Raise ValueError
  | x :: l' => k <- key x ;; min_scan key x k l'
  end.

(** ** The functions of the script *)

(** A sample point [[f, c, alpha, beta, gamma, [f - fr for fr in frets]]]. *)
Record point : Type := mkpoint {
  pt_f : float64;
  pt_c : float64;
  pt_alpha : float64;
  pt_beta : float64;
  pt_gamma : float64;
  pt_deviation : list float64
}.

(** The quotient is numpy's: the script calls the function with a float64
    frequency. *)
Definition calculate_cent_difference (f1 f2 : float64) : result float64 :=
  Ok (np_mul (Num 1200)
        (np_log2 (if np_lt f2 f1 then np_div f1 f2 else np_div f2 f1))).

Definition get_micros_as_degree (micros precision max_degrees : R)
  : result R :=
  if Rlt_dec 0 micros then
    q <- py_div (max_degrees * micros) max_degrees ;; py_div q precision
  else Ok 0.

Definition calculate_alpha (a b beta : float64) : result float64 :=
  Ok (np_rad2deg
        (np_arcsin (np_div (np_mul a (np_sin (np_deg2rad beta))) b))).

(** The key of the scan for fret [i]: [abs(t[5][i])]. *)
Definition deviation_key (i : nat) (t : point) : result float64 :=
  d <- getitem (pt_deviation t) i ;; Ok (np_abs d).

Definition find_nearest_fret_points {F : Type}
    (points : list point) (frets : list F) : result (list (nat * point)) :=
  comprehension
    (fun '(i, _) => best <- py_min (deviation_key i) points ;; Ok (i, best))
    (enumerate frets).

(** ** The script ([if __name__ == '__main__']) *)

(** music theory: [2 ** (1 / 12)], the twelfth root of 2 *)
Definition half_step_factor : R := Rpower 2 (1 / 12).

(** The fret positions of a scale length [mensur] with [max_frets] frets,
    [[mensur - mensur / half_step_factor ** f
      for f in range(1, max_frets + 1)]]. *)
Definition fret_positions (mensur : R) (max_frets : nat) : result (list R) :=
  comprehension
    (fun f => q <- py_div mensur (half_step_factor ^ f) ;; Ok (mensur - q))
    (seq 1 max_frets).

Module Main.

(** guitar *)
Definition mensur : R := 648.00.
Definition max_frets : nat := 13.
Definition frets : result (list R) := fret_positions mensur max_frets.

(** string properties *)
Definition frequencies : list R :=
  [82.41; 110.0; 146.83; 196.0; 246.94; 329.63].

Definition wave_lengths (frets : list R) : list R :=
  map (fun f => (mensur - f) / 1000.0 * 2) frets.

Definition wave_speeds : list R :=
  map (fun fq => mensur / 1000.0 * 2 * fq) frequencies.

Definition fret_frequencies : result (list (list R)) :=
  frets <- frets ;;
  comprehension
    (fun '(i, ws) =>
       fqs <- comprehension (fun wl => py_div ws wl) (wave_lengths frets) ;;
       fq <- getitem frequencies i ;;
       Ok (fq :: fqs))
    (enumerate wave_speeds).

(** servo arm mounting *)
Definition a : R := 206.10.
Definition b : R := 275.32.
Definition e : R := 36.38.
Definition f_offset : R := 50.00.

(** servo motor specifications *)
Definition servo_min_micros : Z := 600.
Definition servo_max_micros : Z := 2400.
Definition servo_max_degrees : R := 180.0.
Definition servo_dead_band : R := 2.0.
Definition servo_micro_seconds : Z := servo_max_micros - servo_min_micros.
Definition servo_precision : result R :=
  py_div (IZR servo_micro_seconds) servo_max_degrees.

(** The body of the loop over [ms]; [get_micros_as_degree(ms)] takes its
    defaults [precision=10.0] and [max_degrees=180.0]. *)
Definition sample (frets : list R) (ms : Z) : result point :=
  beta <- get_micros_as_degree (IZR ms) 10.0 180.0 ;;
  alpha <- calculate_alpha (Num a) (Num b) (Num beta) ;;
  let gamma := np_sub (np_sub (Num 180.0) alpha) (Num beta) in
  let c :=
    np_pow_half
      (np_sub (Num (a ^ 2 + b ^ 2))
              (np_mul (Num (2 * a * b)) (np_cos (np_deg2rad gamma)))) in
  let f :=
    np_sub (np_pow_half (np_sub (np_square c) (Num (e ^ 2))))
           (Num f_offset) in
  Ok (mkpoint f c alpha (Num beta) gamma
        (map (fun fr => np_sub f (Num fr)) frets)).

Definition pulse_widths : result (list Z) :=
  servo_precision <- servo_precision ;;
  py_range 0 (servo_micro_seconds + 1) (py_int servo_precision).

Definition points : result (list point) :=
  frets <- frets ;;
  steps <- pulse_widths ;;
  comprehension (sample frets) steps.

Definition nearest_fret_points : result (list (nat * point)) :=
  frets <- frets ;;
  points <- points ;;
  find_nearest_fret_points points frets.

(** The report.  A row holds the arguments of the [format] of the line the
    loop logs for a fret: [i + 1], the fret position [f], the displacement of
    the nearest sample, the frequency [f1] of the fret and [f2] of the
    displacement on the string [string_ind], their difference in cents, and
    the angles of the sample.  The formatting of the line is not modelled;
    [report] is the sequence of rows logged by a loop that completes. *)
Record report_row : Type := mkrow {
  row_fret : nat;
  row_actual : R;
  row_nearest : float64;
  row_f1 : R;
  row_f2 : float64;
  row_cent_diff : float64;
  row_alpha : float64;
  row_beta : float64;
  row_gamma : float64
}.

Definition string_ind : nat := 0.

Definition report_line (fret_frequencies : list (list R))
    (nearest_fret_points : list (nat * point)) (entry : nat * R)
  : result report_row :=
  let '(i, f) := entry in
  ws <- getitem wave_speeds string_ind ;;
  string_frequencies <- getitem fret_frequencies string_ind ;;
  f1 <- getitem string_frequencies (i + 1) ;;
  nearest <- getitem nearest_fret_points i ;;
  let f2 :=
    np_div (Num ws)
      (np_mul (np_div (np_sub (Num mensur) (pt_f (snd nearest))) (Num 1000.0))
              (Num 2)) in
  cent_diff <- calculate_cent_difference (Num f1) f2 ;;
  Ok (mkrow (i + 1) f (pt_f (snd nearest)) f1 f2 cent_diff
        (pt_alpha (snd nearest)) (pt_beta (snd nearest))
        (pt_gamma (snd nearest))).

Definition report : result (list report_row) :=
  frets <- frets ;;
  fret_frequencies <- fret_frequencies ;;
  nearest_fret_points <- nearest_fret_points ;;
  comprehension (report_line fret_frequencies nearest_fret_points)
    (enumerate frets).

End Main.

(** ** Vocabulary of the properties *)

(** The argument of the arcsine in [calculate_alpha], [(a * sin(beta)) / b],
    and what it is for it to lie in [[-1, 1]]. *)
Definition arcsin_argument (a b beta : float64) : float64 :=
  np_div (np_mul a (np_sin (np_deg2rad beta))) b.

Definition in_unit_interval (x : float64) : Prop :=
  exists u : R, x = Num u /\ -1 <= u <= 1.

(** A call that raises. *)
Definition raises {A : Type} (r : result A) : Prop :=
  exists err : exn, r = Raise err.

(** The law of sines for the sides [a], [b] and the angles [alpha], [beta]
    (in degrees) opposite to them: [a / sin(alpha) == b / sin(beta)]. *)
Definition law_of_sines (a b alpha beta : float64) : Prop :=
  np_eq (np_div a (np_sin (np_deg2rad alpha)))
        (np_div b (np_sin (np_deg2rad beta))).

(** The absolute deviation of a sample from fret [i], the quantity the
    matcher minimises. *)
Definition abs_deviation (i : nat) (t : point) : float64 :=
  np_abs (nth i (pt_deviation t) NaN).

(** [best] is the first item of [l] whose key is minimal: every item scanned
    before it has a strictly larger key, every item after it a key that is
    not smaller. *)
Definition first_minimum {A : Type} (key : A -> float64) (l : list A)
    (best : A) : Prop :=
  exists before after : list A,
    l = before ++ best :: after /\
    Forall (fun t => np_lt (key best) (key t) = true) before /\
    Forall (fun t => np_le (key best) (key t) = true) after.

(** The key of the scan, [key], returns on the item [t] the value [kf t],
    which is not nan. *)
Definition keyed {A : Type} (key : A -> result float64) (kf : A -> float64)
    (t : A) : Prop :=
  key t = Ok (kf t) /\ kf t <> NaN.

(** A sample carries a deviation for each of the [n] frets, none of them
    nan. *)
Definition covers_frets (n : nat) (t : point) : Prop :=
  (n <= length (pt_deviation t))%nat /\
  Forall (fun d => d <> NaN) (pt_deviation t).

(** The theoretical distance of fret [f] from the nut on a scale length
    [L]. *)
Definition fret_distance (L : R) (f : nat) : R :=
  L - L / half_step_factor ^ f.

(** The angles of a sample sum to 180 degrees:
    [alpha + beta + gamma == 180.0]. *)
Definition triangle_angle_sum (p : point) : Prop :=
  np_eq (np_add (np_add (pt_alpha p) (pt_beta p)) (pt_gamma p)) (Num 180.0).

(** Entry [i] of the deviation vector is [f - frets[i]], for every fret. *)
Definition deviations_from (frets : list R) (p : point) : Prop :=
  Forall2 (fun d fr => np_eq d (np_sub (pt_f p) (Num fr)))
          (pt_deviation p) frets.

(** The pulse widths [0, 10, .., 1800] of the sweep. *)
Definition sweep : list Z :=
  map (fun k => (10 * Z.of_nat k)%Z) (seq 0 181).

(** Three samples two of which tie on each of two frets. *)
Definition tie_sample (d0 d1 : R) : point :=
  mkpoint (Num 0) (Num 0) (Num 0) (Num 0) (Num 0) [Num d0; Num d1].

Definition tie_samples : list point :=
  [tie_sample 3 (-1); tie_sample (-2) 1; tie_sample 2 5].

(** A sample as the loop computes it from an arcsine outside its domain:
    every field but [beta] is nan. *)
Definition nan_sample : point :=
  mkpoint NaN NaN NaN (Num 0) NaN [NaN; NaN].

(** The triangle of the linkage at the servo angle [beta] (degrees): the
    angles [alpha] and [gamma], the square of the third side [c], and the
    displacement [f]. *)
Definition alpha_at (beta : R) : R :=
  asin (Main.a * sin (beta * (PI / 180)) / Main.b) * (180 / PI).

Definition gamma_at (beta : R) : R := 180.0 - alpha_at beta - beta.

Definition side_at (beta : R) : R :=
  Main.a ^ 2 + Main.b ^ 2
  - 2 * Main.a * Main.b * cos (gamma_at beta * (PI / 180)).

Definition displacement_at (beta : R) : R :=
  sqrt (side_at beta - Main.e ^ 2) - Main.f_offset.

(** The sample of the servo angle [beta], and the fret positions of the
    script. *)
Definition sample_at (frets : list R) (beta : R) : point :=
  mkpoint (Num (displacement_at beta)) (Num (sqrt (side_at beta)))
    (Num (alpha_at beta)) (Num beta) (Num (gamma_at beta))
    (map (fun fr => Num (displacement_at beta - fr)) frets).

Definition theoretical_frets : list R :=
  map (fret_distance Main.mensur) (seq 1 Main.max_frets).

(** ** Arithmetic of the two number models *)

(** A decimal literal is a quotient of two integers. *)
Ltac decimals :=
  unfold Q2R in *; cbn [QArith_base.Qnum QArith_base.Qden] in *.

Lemma py_div_ok (x y : R) : y <> 0 -> py_div x y = Ok (x / y).
Proof.
  intros Hy. unfold py_div. destruct (Req_dec_T y 0); [contradiction|reflexivity].
Qed.

Lemma py_div_zero (x : R) : py_div x 0 = Raise ZeroDivisionError.
Proof.
  unfold py_div. destruct (Req_dec_T 0 0) as [_|H]; [reflexivity|now elim H].
Qed.

Lemma Rltb_true (x y : R) : Rltb x y = true <-> x < y.
Proof.
  unfold Rltb. destruct (Rlt_dec x y); split; intros; auto; discriminate.
Qed.

Lemma Rltb_false (x y : R) : Rltb x y = false <-> y <= x.
Proof.
  unfold Rltb. destruct (Rlt_dec x y); split; intros; auto; try discriminate; lra.
Qed.

Lemma Rleb_true (x y : R) : Rleb x y = true <-> x <= y.
Proof.
  unfold Rleb. destruct (Rle_dec x y); split; intros; auto; discriminate.
Qed.

Lemma np_div_num (u v : R) : v <> 0 -> np_div (Num u) (Num v) = Num (u / v).
Proof.
  intros Hv. simpl. destruct (Req_dec_T v 0); [contradiction|reflexivity].
Qed.

Lemma scale_inf_not_num (negative : bool) (u x : R) :
  scale_inf negative u <> Num x.
Proof.
  unfold scale_inf. destruct (Rlt_dec 0 u); [discriminate|].
  destruct (Rlt_dec u 0); discriminate.
Qed.

(** A quotient of two numbers is a number only over a non-zero divisor. *)
Lemma np_div_num_inv (u v x : R) :
  np_div (Num u) (Num v) = Num x -> v <> 0 /\ x = u / v.
Proof.
  simpl. destruct (Req_dec_T v 0) as [->|Hv].
  - intros H. now apply scale_inf_not_num in H.
  - intros H. injection H as <-. now split.
Qed.

Lemma np_arcsin_num (u : R) :
  -1 <= u <= 1 -> np_arcsin (Num u) = Num (asin u).
Proof.
  intros [Hl Hu]. simpl.
  destruct (Rle_dec (-1) u); [|contradiction].
  destruct (Rle_dec u 1); [reflexivity|contradiction].
Qed.

Lemma np_arcsin_outside (x : float64) :
  ~ in_unit_interval x -> np_arcsin x = NaN.
Proof.
  intros Hx. destruct x as [u| |]; try reflexivity. simpl.
  destruct (Rle_dec (-1) u); [|reflexivity].
  destruct (Rle_dec u 1); [|reflexivity].
  elim Hx. exists u. auto.
Qed.

Lemma np_log2_num (u : R) : 0 < u -> np_log2 (Num u) = Num (log2 u).
Proof.
  intros Hu. simpl. destruct (Rlt_dec 0 u); [reflexivity|contradiction].
Qed.

Lemma deg2rad_rad2deg (x : R) : x * (180 / PI) * (PI / 180) = x.
Proof.
  pose proof PI_neq0. field. assumption.
Qed.

Lemma ln2_pos : 0 < ln 2.
Proof.
  pose proof ln_lt_2. lra.
Qed.

Lemma log2_1 : log2 1 = 0.
Proof.
  unfold log2. rewrite ln_1. pose proof ln2_pos. field. lra.
Qed.

Lemma log2_nonneg (x : R) : 1 <= x -> 0 <= log2 x.
Proof.
  intros Hx. unfold log2. pose proof ln2_pos as H2.
  assert (0 <= ln x).
  { destruct Hx as [Hx| <-].
    - rewrite <- ln_1. left. apply ln_increasing; lra.
    - rewrite ln_1. lra. }
  apply Rmult_le_pos; [assumption|].
  left. now apply Rinv_0_lt_compat.
Qed.

(** ** Comprehensions *)

Lemma comprehension_ok {A B : Type} (body : A -> result B)
    (P : A -> B -> Prop) (l : list A) :
  Forall (fun x => exists y, body x = Ok y /\ P x y) l ->
  exists ys, comprehension body l = Ok ys /\ Forall2 P l ys.
Proof.
  induction 1 as [|x l [y [Hy HP]] _ [ys [Hys HF]]]; simpl.
  - exists []. split; [reflexivity|constructor].
  - exists (y :: ys). rewrite Hy. simpl. rewrite Hys. simpl.
    split; [reflexivity|now constructor].
Qed.

Lemma comprehension_length {A B : Type} (body : A -> result B)
    (l : list A) (ys : list B) :
  comprehension body l = Ok ys -> length ys = length l.
Proof.
  revert ys. induction l as [|x l IH]; simpl; intros ys H.
  - now injection H as <-.
  - destruct (body x) as [y|]; simpl in H; [|discriminate].
    destruct (comprehension body l) as [ys'|]; simpl in H; [|discriminate].
    injection H as <-. simpl. f_equal. now apply IH.
Qed.

Lemma enumerate_fst {A : Type} (l : list A) :
  map fst (enumerate l) = seq 0 (length l).
Proof.
  unfold enumerate. generalize 0%nat.
  induction l as [|x l IH]; intros s; simpl; [reflexivity|].
  f_equal. apply IH.
Qed.

Lemma enumerate_index {A : Type} (l : list A) (i : nat) (x : A) :
  In (i, x) (enumerate l) -> (i < length l)%nat.
Proof.
  intros H. apply in_combine_l in H. apply in_seq in H. lia.
Qed.

Lemma comprehension_map {A B : Type} (body : A -> result B) (g : A -> B)
    (l : list A) :
  (forall x, In x l -> body x = Ok (g x)) ->
  comprehension body l = Ok (map g l).
Proof.
  induction l as [|x l IH]; intros H; simpl; [reflexivity|].
  rewrite (H x) by now left. simpl.
  rewrite IH by (intros y Hy; apply H; now right). reflexivity.
Qed.

Lemma comprehension_Forall2 {A B : Type} (body : A -> result B)
    (l : list A) (ys : list B) :
  comprehension body l = Ok ys -> Forall2 (fun x y => body x = Ok y) l ys.
Proof.
  revert ys. induction l as [|x l IH]; simpl; intros ys H.
  - injection H as <-. constructor.
  - destruct (body x) as [y|] eqn:Hy; simpl in H; [|discriminate].
    destruct (comprehension body l) as [ys'|]; simpl in H; [|discriminate].
    injection H as <-. constructor; [assumption|now apply IH].
Qed.

(** ** Pitch difference in cents *)

(** C4. For positive frequencies [calculate_cent_difference] is
    [1200 * log2(max(f1, f2) / min(f1, f2))]: it is zero on equal
    frequencies, symmetric and never negative. *)
Theorem calculate_cent_difference_spec :
  forall f1 f2 : R,
    0 < f1 -> 0 < f2 ->
    calculate_cent_difference (Num f1) (Num f2)
    = Ok (Num (1200 * log2 (Rmax f1 f2 / Rmin f1 f2))) /\
    calculate_cent_difference (Num f1) (Num f1) = Ok (Num 0) /\
    calculate_cent_difference (Num f1) (Num f2)
    = calculate_cent_difference (Num f2) (Num f1) /\
    0 <= 1200 * log2 (Rmax f1 f2 / Rmin f1 f2).
Proof.
  intros f1 f2 H1 H2.
  assert (Hgen : forall g1 g2 : R, 0 < g1 -> 0 < g2 ->
            calculate_cent_difference (Num g1) (Num g2)
            = Ok (Num (1200 * log2 (Rmax g1 g2 / Rmin g1 g2)))).
  { intros g1 g2 G1 G2. unfold calculate_cent_difference. simpl np_lt.
    destruct (Rltb g2 g1) eqn:Hlt.
    - apply Rltb_true in Hlt.
      rewrite Rmax_left, Rmin_right by lra.
      rewrite np_div_num by lra.
      rewrite np_log2_num; [reflexivity|].
      apply Rdiv_lt_0_compat; assumption.
    - apply Rltb_false in Hlt.
      rewrite Rmax_right, Rmin_left by lra.
      rewrite np_div_num by lra.
      rewrite np_log2_num; [reflexivity|].
      apply Rdiv_lt_0_compat; assumption. }
  repeat split.
  - apply Hgen; assumption.
  - rewrite Hgen by assumption.
    rewrite Rmax_left, Rmin_left by lra.
    replace (f1 / f1) with 1 by (field; lra).
    rewrite log2_1. do 2 f_equal. ring.
  - rewrite !Hgen by assumption.
    now rewrite (Rmax_comm f1 f2), (Rmin_comm f1 f2).
  - apply Rmult_le_pos; [lra|].
    apply log2_nonneg.
    assert (Hmin : 0 < Rmin f1 f2) by (apply Rmin_glb_lt; assumption).
    apply Rmult_le_reg_r with (Rmin f1 f2); [assumption|].
    unfold Rdiv. rewrite Rmult_assoc, Rinv_l by lra.
    pose proof (Rminmax f1 f2). lra.
Qed.

Lemma calculate_cent_difference_spec_witness :
  calculate_cent_difference (Num 440) (Num 220)
  = calculate_cent_difference (Num 220) (Num 440).
Proof.
  apply (calculate_cent_difference_spec 440 220); lra.
Defined.

(** ** Pulse width to angle *)

(** C3. For [micros > 0] the call returns
    [max_degrees * micros / max_degrees / precision], which is
    [micros / precision] (a zero [max_degrees] or [precision] makes the
    division raise), and for [micros <= 0] it returns [0.0]. *)
Theorem get_micros_as_degree_spec :
  forall micros precision max_degrees : R,
    (0 < micros -> max_degrees <> 0 -> precision <> 0 ->
     get_micros_as_degree micros precision max_degrees
     = Ok (max_degrees * micros / max_degrees / precision) /\
     max_degrees * micros / max_degrees / precision = micros / precision) /\
    (0 < micros -> max_degrees = 0 \/ precision = 0 ->
     get_micros_as_degree micros precision max_degrees
     = Raise ZeroDivisionError) /\
    (micros <= 0 ->
     get_micros_as_degree micros precision max_degrees = Ok 0).
Proof.
  intros micros precision max_degrees. unfold get_micros_as_degree.
  destruct (Rlt_dec 0 micros) as [Hpos|Hneg].
  - split; [|split].
    + intros _ Hd Hp. rewrite py_div_ok by assumption. simpl.
      rewrite py_div_ok by assumption. split; [reflexivity|].
      field. split; assumption.
    + intros _ Hzero.
      destruct (Req_dec_T max_degrees 0) as [->|Hd].
      * now rewrite py_div_zero.
      * rewrite py_div_ok by assumption. simpl.
        destruct Hzero as [Hd0| ->]; [contradiction|apply py_div_zero].
    + intros Hle. lra.
  - split; [|split]; intros; try lra. reflexivity.
Qed.

Lemma get_micros_as_degree_spec_witness :
  get_micros_as_degree 20 10 180 = Ok (180 * 20 / 180 / 10) /\
  180 * 20 / 180 / 10 = 20 / 10.
Proof.
  apply (get_micros_as_degree_spec 20 10 180); lra.
Defined.

(** ** The law of sines *)

Lemma calculate_alpha_unfold (a b beta : float64) :
  calculate_alpha a b beta
  = Ok (np_rad2deg (np_arcsin (arcsin_argument a b beta))).
Proof. reflexivity. Qed.

Lemma sin_90_degrees : sin (90 * (PI / 180)) = 1.
Proof.
  replace (90 * (PI / 180)) with (PI / 2) by field. apply sin_PI2.
Qed.

(** The arcsine argument of two sides and an angle that are numbers. *)
Lemma arcsin_argument_num (a b beta : R) :
  b <> 0 ->
  arcsin_argument (Num a) (Num b) (Num beta)
  = Num (a * sin (beta * (PI / 180)) / b).
Proof.
  intros Hb. unfold arcsin_argument. simpl np_mul. now apply np_div_num.
Qed.

Lemma arcsin_argument_num_inv (a b beta u : R) :
  arcsin_argument (Num a) (Num b) (Num beta) = Num u ->
  b <> 0 /\ u = a * sin (beta * (PI / 180)) / b.
Proof.
  unfold arcsin_argument. simpl np_mul. apply np_div_num_inv.
Qed.

(** C2 (as amended). When [(a * sin(beta)) / b] is not in [[-1, 1]] the call
    returns nan: numpy's arcsine answers an argument outside its domain with
    nan, and no exception is raised. *)
Theorem calculate_alpha_outside_domain :
  forall a b beta : float64,
    ~ in_unit_interval (arcsin_argument a b beta) ->
    calculate_alpha a b beta = Ok NaN /\
    ~ raises (calculate_alpha a b beta).
Proof.
  intros a b beta Hout. rewrite calculate_alpha_unfold.
  rewrite (np_arcsin_outside _ Hout). split; [reflexivity|].
  intros [err Herr]. discriminate.
Qed.

Lemma arcsin_argument_2_1_90 :
  arcsin_argument (Num 2) (Num 1) (Num 90) = Num 2.
Proof.
  rewrite arcsin_argument_num by lra. rewrite sin_90_degrees. f_equal. field.
Qed.

Lemma outside_2_1_90 :
  ~ in_unit_interval (arcsin_argument (Num 2) (Num 1) (Num 90)).
Proof.
  rewrite arcsin_argument_2_1_90. intros [u [Hu Hb]].
  injection Hu as <-. lra.
Qed.

Lemma calculate_alpha_outside_domain_witness :
  calculate_alpha (Num 2) (Num 1) (Num 90) = Ok NaN /\
  ~ raises (calculate_alpha (Num 2) (Num 1) (Num 90)).
Proof.
  apply (calculate_alpha_outside_domain (Num 2) (Num 1) (Num 90)).
  exact outside_2_1_90.
Defined.

(** C2, counterexample. With [a = 2], [b = 1] and [beta = 90] the arcsine
    argument is 2, outside [[-1, 1]], and the call returns nan instead of
    raising. *)
Lemma calculate_alpha_returns_nan :
  ~ (forall a b beta : float64,
        ~ in_unit_interval (arcsin_argument a b beta) ->
        raises (calculate_alpha a b beta)).
Proof.
  intros Hclaim.
  destruct (Hclaim (Num 2) (Num 1) (Num 90) outside_2_1_90) as [err Herr].
  discriminate.
Qed.

(** C7 (as amended). For numbers [a], [b], [beta] with [a <> 0],
    [sin(beta) <> 0] and [(a * sin(beta)) / b] in [[-1, 1]], the angle
    [alpha] that [calculate_alpha] returns satisfies the law of sines
    [a / sin(alpha) = b / sin(beta)]; and
    [calculate_alpha(206.10, 275.32, 0) = 0]. *)
Theorem calculate_alpha_law_of_sines :
  (forall a b beta : R,
      a <> 0 ->
      sin (beta * (PI / 180)) <> 0 ->
      in_unit_interval (arcsin_argument (Num a) (Num b) (Num beta)) ->
      exists alpha : R,
        calculate_alpha (Num a) (Num b) (Num beta) = Ok (Num alpha) /\
        law_of_sines (Num a) (Num b) (Num alpha) (Num beta) /\
        a / sin (alpha * (PI / 180)) = b / sin (beta * (PI / 180))) /\
  calculate_alpha (Num 206.10) (Num 275.32) (Num 0) = Ok (Num 0).
Proof.
  split.
  - intros a b beta Ha Hs [u [Hu Hb]].
    destruct (arcsin_argument_num_inv _ _ _ _ Hu) as [Hb0 Heq].
    exists (asin u * (180 / PI)).
    assert (Hsin : sin (asin u * (180 / PI) * (PI / 180)) = u).
    { rewrite deg2rad_rad2deg. now apply sin_asin. }
    assert (Hu0 : u <> 0).
    { rewrite Heq. unfold Rdiv.
      repeat apply Rmult_integral_contrapositive_currified; auto.
      now apply Rinv_neq_0_compat. }
    assert (Hlaw : a / u = b / sin (beta * (PI / 180))).
    { rewrite Heq. field. repeat split; assumption. }
    split; [|split].
    + rewrite calculate_alpha_unfold, Hu, np_arcsin_num by assumption.
      reflexivity.
    + unfold law_of_sines. simpl np_deg2rad. simpl np_sin. rewrite Hsin.
      rewrite !np_div_num by assumption. exact Hlaw.
    + rewrite Hsin. exact Hlaw.
  - rewrite calculate_alpha_unfold, arcsin_argument_num by lra.
    rewrite Rmult_0_l, sin_0.
    replace (206.10 * 0 / 275.32) with 0 by lra.
    rewrite np_arcsin_num by lra. rewrite asin_0. simpl. now rewrite Rmult_0_l.
Qed.

Lemma sin_30_degrees : sin (30 * (PI / 180)) = 1 / 2.
Proof.
  replace (30 * (PI / 180)) with (PI / 6) by field. apply sin_PI6.
Qed.

Lemma calculate_alpha_law_of_sines_witness :
  exists alpha : R,
    calculate_alpha (Num 1) (Num 1) (Num 30) = Ok (Num alpha) /\
    law_of_sines (Num 1) (Num 1) (Num alpha) (Num 30) /\
    1 / sin (alpha * (PI / 180)) = 1 / sin (30 * (PI / 180)).
Proof.
  apply (proj1 calculate_alpha_law_of_sines 1 1 30).
  - lra.
  - rewrite sin_30_degrees. lra.
  - exists (1 / 2). rewrite arcsin_argument_num by lra.
    rewrite sin_30_degrees. split; [f_equal; field|lra].
Defined.

(** C7, counterexample. With [a = 0], [b = 1] and [beta = 90] the hypotheses
    of the claim hold ([sin(beta) = 1], arcsine argument 0), the call returns
    [alpha = 0], and [a / sin(alpha)] is [0 / 0], which is nan and so differs
    from [b / sin(beta) = 1]. *)
Lemma calculate_alpha_zero_side :
  sin (90 * (PI / 180)) <> 0 /\
  in_unit_interval (arcsin_argument (Num 0) (Num 1) (Num 90)) /\
  calculate_alpha (Num 0) (Num 1) (Num 90) = Ok (Num 0) /\
  np_div (Num 0) (np_sin (np_deg2rad (Num 0))) = NaN /\
  ~ law_of_sines (Num 0) (Num 1) (Num 0) (Num 90).
Proof.
  assert (Harg : arcsin_argument (Num 0) (Num 1) (Num 90) = Num 0).
  { rewrite arcsin_argument_num by lra. f_equal. field. }
  assert (Hnan : np_div (Num 0) (np_sin (np_deg2rad (Num 0))) = NaN).
  { simpl np_deg2rad. simpl np_sin. rewrite Rmult_0_l, sin_0. simpl.
    destruct (Req_dec_T 0 0) as [_|H]; [|now elim H].
    unfold scale_inf.
    destruct (Rlt_dec 0 0) as [H|_]; [lra|reflexivity]. }
  repeat split.
  - rewrite sin_90_degrees. lra.
  - exists 0. split; [exact Harg|lra].
  - rewrite calculate_alpha_unfold, Harg, np_arcsin_num by lra.
    rewrite asin_0. simpl. now rewrite Rmult_0_l.
  - exact Hnan.
  - unfold law_of_sines. rewrite Hnan. simpl. auto.
Qed.

(** ** The fret geometry *)

Lemma half_step_factor_gt_1 : 1 < half_step_factor.
Proof.
  assert (H : Rpower 2 0 < Rpower 2 (1 / 12)) by (apply Rpower_lt; lra).
  rewrite Rpower_O in H by lra. exact H.
Qed.

Lemma half_step_factor_pos : 0 < half_step_factor.
Proof.
  pose proof half_step_factor_gt_1. lra.
Qed.

(** The powers of the semitone ratio: [r ^ f = 2 ^ (f / 12)]. *)
Lemma half_step_factor_pow (f : nat) :
  half_step_factor ^ f = Rpower 2 (INR f / 12).
Proof.
  rewrite <- Rpower_pow by apply half_step_factor_pos.
  unfold half_step_factor. rewrite Rpower_mult. f_equal. field.
Qed.

Lemma half_step_factor_twelfth_root : half_step_factor ^ 12 = 2.
Proof.
  rewrite half_step_factor_pow.
  replace (INR 12 / 12) with 1 by (simpl; field).
  apply Rpower_1. lra.
Qed.

Lemma half_step_pow_pos (f : nat) : 0 < half_step_factor ^ f.
Proof.
  apply pow_lt, half_step_factor_pos.
Qed.

Lemma fret_positions_ok (L : R) (N : nat) :
  fret_positions L N = Ok (map (fret_distance L) (seq 1 N)).
Proof.
  apply comprehension_map. intros f _.
  rewrite py_div_ok; [reflexivity|].
  pose proof (half_step_pow_pos f). lra.
Qed.

Lemma fret_distance_bounds (L : R) (f : nat) :
  0 < L -> (1 <= f)%nat -> 0 < fret_distance L f < L.
Proof.
  intros HL Hf. unfold fret_distance.
  assert (H1 : 1 < half_step_factor ^ f).
  { apply Rlt_pow_R1; [apply half_step_factor_gt_1|lia]. }
  assert (Hinv : 0 < / half_step_factor ^ f < 1).
  { split; [apply Rinv_0_lt_compat; lra|].
    assert (H : / half_step_factor ^ f < / 1)
      by (apply Rinv_lt_contravar; lra).
    now rewrite Rinv_1 in H. }
  unfold Rdiv. nra.
Qed.

Lemma fret_distance_increasing (L : R) (f g : nat) :
  0 < L -> (f < g)%nat -> fret_distance L f < fret_distance L g.
Proof.
  intros HL Hfg. unfold fret_distance.
  pose proof (half_step_pow_pos f) as Hf.
  pose proof (half_step_pow_pos g) as Hg.
  assert (Hpow : half_step_factor ^ f < half_step_factor ^ g).
  { apply Rlt_pow; [apply half_step_factor_gt_1|assumption]. }
  assert (Hinv : / half_step_factor ^ g < / half_step_factor ^ f).
  { apply Rinv_lt_contravar; [nra|assumption]. }
  unfold Rdiv. nra.
Qed.

Lemma fret_distances_sorted (L : R) (N s : nat) :
  0 < L -> StronglySorted Rlt (map (fret_distance L) (seq s N)).
Proof.
  intros HL. revert s. induction N as [|N IH]; intros s; simpl.
  - constructor.
  - constructor; [apply IH|].
    apply Forall_forall. intros x Hx.
    apply in_map_iff in Hx. destruct Hx as [g [<- Hg]].
    apply in_seq in Hg. apply fret_distance_increasing; [assumption|lia].
Qed.

(** C5. With [r] the twelfth root of two, the generator yields for the fret
    indices [f = 1 .. N] the distances [L - L / r ^ f]; for a scale length
    [L > 0] they are strictly increasing and lie strictly between [0] and
    [L]. *)
Theorem fret_positions_spec :
  forall (N : nat) (L : R),
    (1 <= N)%nat -> 0 < L ->
    half_step_factor ^ 12 = 2 /\
    exists frets : list R,
      fret_positions L N = Ok frets /\
      length frets = N /\
      (forall f : nat, (1 <= f <= N)%nat ->
         nth_error frets (f - 1) = Some (L - L / half_step_factor ^ f)) /\
      StronglySorted Rlt frets /\
      Forall (fun x => 0 < x < L) frets.
Proof.
  intros N L _ HL. split; [apply half_step_factor_twelfth_root|].
  exists (map (fret_distance L) (seq 1 N)).
  split; [apply fret_positions_ok|]. split; [|split; [|split]].
  - now rewrite length_map, length_seq.
  - intros f Hf. rewrite nth_error_map, nth_error_seq.
    destruct (Nat.ltb_spec (f - 1) N) as [_|Hge]; [|lia].
    unfold option_map. replace (1 + (f - 1))%nat with f by lia. reflexivity.
  - now apply fret_distances_sorted.
  - apply Forall_forall. intros x Hx.
    apply in_map_iff in Hx. destruct Hx as [f [<- Hf]].
    apply in_seq in Hf. apply fret_distance_bounds; [assumption|lia].
Qed.

Lemma fret_positions_spec_witness :
  exists frets : list R,
    fret_positions 648 13 = Ok frets /\
    length frets = 13%nat /\
    (forall f : nat, (1 <= f <= 13)%nat ->
       nth_error frets (f - 1) = Some (648 - 648 / half_step_factor ^ f)) /\
    StronglySorted Rlt frets /\
    Forall (fun x => 0 < x < 648) frets.
Proof.
  apply (fret_positions_spec 13 648); [lia|lra].
Defined.

(** ** The frequency table *)

(** The wave length at fret [f] is that of the open string over [r ^ f], so
    a string of open frequency [fq] sounds [fq * 2 ^ (f / 12)] there. *)
Lemma fret_frequency_row (fq : R) (N : nat) :
  comprehension (fun wl => py_div (Main.mensur / 1000.0 * 2 * fq) wl)
    (Main.wave_lengths (map (fret_distance Main.mensur) (seq 1 N)))
  = Ok (map (fun f => fq * Rpower 2 (INR f / 12)) (seq 1 N)).
Proof.
  unfold Main.wave_lengths. rewrite map_map.
  rewrite comprehension_map
    with (g := fun wl => Main.mensur / 1000.0 * 2 * fq / wl).
  - rewrite map_map. f_equal. apply map_ext. intros f.
    rewrite <- half_step_factor_pow. unfold fret_distance, Main.mensur.
    pose proof (half_step_pow_pos f) as Hf.
    remember (half_step_factor ^ f) as p eqn:Hp. clear Hp. field. lra.
  - intros wl Hwl. apply in_map_iff in Hwl. destruct Hwl as [f [<- _]].
    apply py_div_ok. unfold fret_distance, Main.mensur.
    pose proof (half_step_pow_pos f) as Hf.
    remember (half_step_factor ^ f) as p eqn:Hp. clear Hp.
    replace ((648.00 - (648.00 - 648.00 / p)) / 1000.0 * 2)
      with (1296 / 1000 * / p) by (decimals; field; lra).
    apply Rinv_0_lt_compat in Hf. nra.
Qed.

Lemma fret_frequency_rows (wls : list R) (h : R -> R) (row : R -> list R) :
  (forall fq, comprehension (fun wl => py_div (h fq) wl) wls = Ok (row fq)) ->
  forall l pre : list R,
    comprehension
      (fun '(i, ws) =>
         fqs <- comprehension (fun wl => py_div ws wl) wls ;;
         fq <- getitem (pre ++ l) i ;;
         Ok (fq :: fqs))
      (combine (seq (length pre) (length l)) (map h l))
    = Ok (map (fun fq => fq :: row fq) l).
Proof.
  intros Hrow. induction l as [|x l IH]; intros pre; [reflexivity|].
  cbn [length seq map combine comprehension]. rewrite Hrow. cbn [bind].
  unfold getitem at 1.
  rewrite nth_error_app2, Nat.sub_diag by lia. cbn [nth_error bind].
  specialize (IH (pre ++ [x])).
  rewrite <- app_assoc, length_app, Nat.add_1_r in IH. cbn [app] in IH.
  now rewrite IH.
Qed.

(** C10. The frequency table holds, for every string, the open frequency
    [fq] at fret 0 and [fq * 2 ^ (f / 12)] at the frets [f = 1 .. 13]. *)
Theorem fret_frequencies_spec :
  Main.fret_frequencies
  = Ok (map (fun fq =>
               fq :: map (fun f => fq * Rpower 2 (INR f / 12))
                         (seq 1 Main.max_frets))
            Main.frequencies).
Proof.
  unfold Main.fret_frequencies, Main.frets. rewrite fret_positions_ok.
  cbn [bind].
  exact (fret_frequency_rows _ _ _
           (fun fq => fret_frequency_row fq Main.max_frets)
           Main.frequencies []).
Qed.

(** ** The linkage solver *)

Lemma np_pow_half_num (u : R) : 0 <= u -> np_pow_half (Num u) = Num (sqrt u).
Proof.
  intros Hu. simpl. destruct (Rle_dec 0 u); [reflexivity|contradiction].
Qed.

Lemma get_micros_as_degree_default (ms : Z) :
  exists beta : R, get_micros_as_degree (IZR ms) 10.0 180.0 = Ok beta.
Proof.
  unfold get_micros_as_degree.
  destruct (Rlt_dec 0 (IZR ms)); [|now exists 0].
  rewrite py_div_ok by lra. cbn [bind]. rewrite py_div_ok by lra.
  eauto.
Qed.

(** The arm [a] is shorter than [b], so the arcsine is defined at every
    angle. *)
Lemma calculate_alpha_arm (beta : R) :
  calculate_alpha (Num Main.a) (Num Main.b) (Num beta)
  = Ok (Num (asin (Main.a * sin (beta * (PI / 180)) / Main.b) * (180 / PI))).
Proof.
  rewrite calculate_alpha_unfold.
  rewrite arcsin_argument_num by (unfold Main.b; lra).
  rewrite np_arcsin_num; [reflexivity|].
  pose proof (SIN_bound (beta * (PI / 180))) as Hs.
  unfold Main.a, Main.b. lra.
Qed.

(** The third side of a triangle of sides [a] and [b] is longer than [e]. *)
Lemma third_side_bound (gamma : R) :
  (Main.b - Main.a) ^ 2
  <= Main.a ^ 2 + Main.b ^ 2 - 2 * Main.a * Main.b * cos gamma.
Proof.
  pose proof (COS_bound gamma) as Hc. unfold Main.a, Main.b. lra.
Qed.

Lemma sample_ok (frets : list R) (ms : Z) :
  exists f c alpha beta gamma : R,
    Main.sample frets ms
    = Ok (mkpoint (Num f) (Num c) (Num alpha) (Num beta) (Num gamma)
            (map (fun fr => Num (f - fr)) frets)) /\
    alpha + beta + gamma = 180.
Proof.
  unfold Main.sample.
  destruct (get_micros_as_degree_default ms) as [beta ->]. cbn [bind].
  rewrite calculate_alpha_arm. cbn [bind].
  set (alpha := asin (Main.a * sin (beta * (PI / 180)) / Main.b) * (180 / PI)).
  set (gamma := 180.0 - alpha - beta).
  set (side := Main.a ^ 2 + Main.b ^ 2
               - 2 * Main.a * Main.b * cos (gamma * (PI / 180))).
  assert (Hside : (Main.b - Main.a) ^ 2 <= side) by apply third_side_bound.
  assert (Hpos : 0 <= side).
  { unfold Main.a, Main.b in Hside. lra. }
  change (np_sub (np_sub (Num 180.0) (Num alpha)) (Num beta))
    with (Num gamma).
  change (np_sub (Num (Main.a ^ 2 + Main.b ^ 2))
            (np_mul (Num (2 * Main.a * Main.b))
                    (np_cos (np_deg2rad (Num gamma)))))
    with (Num side).
  rewrite (np_pow_half_num side Hpos).
  change (np_square (Num (sqrt side))) with (Num (sqrt side * sqrt side)).
  rewrite sqrt_sqrt by assumption.
  change (np_sub (Num side) (Num (Main.e ^ 2)))
    with (Num (side - Main.e ^ 2)).
  rewrite np_pow_half_num.
  - exists (sqrt (side - Main.e ^ 2) - Main.f_offset), (sqrt side),
      alpha, beta, gamma.
    split; [reflexivity|]. unfold gamma. lra.
  - unfold Main.a, Main.b in Hside. unfold Main.e. lra.
Qed.

(** ** The sweep of the servo *)

Lemma servo_precision_value : Main.servo_precision = Ok 10.
Proof.
  unfold Main.servo_precision, Main.servo_max_degrees.
  rewrite py_div_ok by lra. f_equal.
  change Main.servo_micro_seconds with 1800%Z. lra.
Qed.

Lemma py_int_10 : py_int 10 = 10%Z.
Proof.
  unfold py_int. destruct (Rle_dec 0 10) as [_|H]; [apply ZfloorZ|lra].
Qed.

Lemma pulse_widths_value : Main.pulse_widths = Ok sweep.
Proof.
  unfold Main.pulse_widths. rewrite servo_precision_value. cbn [bind].
  rewrite py_int_10. reflexivity.
Qed.

Lemma points_ok :
  exists (frets : list R) (points : list point),
    Main.frets = Ok frets /\
    Main.points = Ok points /\
    Forall2 (fun ms p => Main.sample frets ms = Ok p) sweep points.
Proof.
  exists (map (fret_distance Main.mensur) (seq 1 Main.max_frets)).
  unfold Main.points, Main.frets. rewrite fret_positions_ok. cbn [bind].
  rewrite pulse_widths_value. cbn [bind].
  set (frets := map (fret_distance Main.mensur) (seq 1 Main.max_frets)).
  destruct (comprehension_ok (Main.sample frets) (fun _ _ => True) sweep)
    as [points [Hrun _]].
  - apply Forall_forall. intros ms _.
    destruct (sample_ok frets ms) as (f & c & al & be & ga & Hs & _).
    eauto.
  - exists points. rewrite Hrun. repeat split.
    now apply comprehension_Forall2.
Qed.

(** C9. The per-degree precision is (2400 - 600) / 180 = 10 microseconds; the
    loop runs over the pulse widths 0, 10, .., 1800, from 0 to
    [servo_max_micros - servo_min_micros] inclusive, and appends one sample
    for each, so the sample set has 181 = 180 + 1 elements. *)
Theorem points_sweep :
  Main.servo_precision
  = Ok (IZR (Main.servo_max_micros - Main.servo_min_micros)
        / Main.servo_max_degrees) /\
  IZR (Main.servo_max_micros - Main.servo_min_micros)
  / Main.servo_max_degrees = 10 /\
  Main.pulse_widths
  = Ok (map (fun k => (10 * Z.of_nat k)%Z) (seq 0 181)) /\
  hd_error sweep = Some 0%Z /\
  last sweep 0%Z = (Main.servo_max_micros - Main.servo_min_micros)%Z /\
  exists (frets : list R) (points : list point),
    Main.frets = Ok frets /\
    Main.points = Ok points /\
    Forall2 (fun ms p => Main.sample frets ms = Ok p) sweep points /\
    length points = 181%nat /\
    IZR (Z.of_nat (length points)) = Main.servo_max_degrees + 1.
Proof.
  split; [|split; [|split; [|split; [|split]]]].
  - unfold Main.servo_precision, Main.servo_max_degrees.
    now rewrite py_div_ok by lra.
  - unfold Main.servo_max_degrees.
    change (Main.servo_max_micros - Main.servo_min_micros)%Z with 1800%Z.
    lra.
  - exact pulse_widths_value.
  - reflexivity.
  - reflexivity.
  - destruct points_ok as (frets & points & Hf & Hp & Hall).
    exists frets, points.
    assert (Hlen : length points = 181%nat).
    { apply Forall2_length in Hall. rewrite <- Hall. reflexivity. }
    repeat split; try assumption.
    rewrite Hlen. unfold Main.servo_max_degrees. simpl Z.of_nat. lra.
Qed.

(** C8. Every sample of the sweep has angles that sum to 180 degrees,
    [alpha + beta + gamma == 180], and a deviation vector whose entry [i] is
    [f - frets[i]] for every fret index [i]. *)
Theorem points_invariant :
  exists (frets : list R) (points : list point),
    Main.frets = Ok frets /\
    Main.points = Ok points /\
    length points = 181%nat /\
    Forall (fun p => triangle_angle_sum p /\ deviations_from frets p) points.
Proof.
  destruct points_ok as (frets & points & Hf & Hp & Hall).
  exists frets, points. repeat split; try assumption.
  - apply Forall2_length in Hall. rewrite <- Hall. reflexivity.
  - clear Hf Hp. induction Hall as [|ms p steps points Hs _ IH];
      constructor; [|exact IH].
    destruct (sample_ok frets ms) as (f & c & al & be & ga & Hs' & Hsum).
    rewrite Hs' in Hs. injection Hs as <-.
    split.
    + unfold triangle_angle_sum. simpl. lra.
    + unfold deviations_from. simpl. clear.
      induction frets as [|fr frets IH]; constructor; [|exact IH].
      simpl. reflexivity.
Qed.

(** ** The order of float64 scalars *)

Lemma np_lt_trans (x y z : float64) :
  np_lt x y = true -> np_lt y z = true -> np_lt x z = true.
Proof.
  destruct x as [u|[]|], y as [v|[]|], z as [w|[]|]; simpl;
    rewrite ?Rltb_true; intros; try discriminate; auto; lra.
Qed.

Lemma np_lt_le_trans (x y z : float64) :
  np_lt x y = true -> np_le y z = true -> np_lt x z = true.
Proof.
  destruct x as [u|[]|], y as [v|[]|], z as [w|[]|]; simpl;
    rewrite ?Rltb_true, ?Rleb_true; intros; try discriminate; auto; lra.
Qed.

Lemma np_lt_le (x y : float64) : np_lt x y = true -> np_le x y = true.
Proof.
  destruct x as [u|[]|], y as [v|[]|]; simpl;
    rewrite ?Rltb_true, ?Rleb_true; intros; try discriminate; auto; lra.
Qed.

Lemma np_le_refl (x : float64) : x <> NaN -> np_le x x = true.
Proof.
  destruct x as [u|n|]; simpl; intros H.
  - apply Rleb_true. lra.
  - now destruct n.
  - now elim H.
Qed.

(** Two scalars that are not nan are comparable. *)
Lemma np_lt_false_le (x y : float64) :
  x <> NaN -> y <> NaN -> np_lt x y = false -> np_le y x = true.
Proof.
  destruct x as [u|[]|], y as [v|[]|]; simpl;
    rewrite ?Rltb_false, ?Rleb_true; intros Hx Hy H;
    try (now elim Hx); try (now elim Hy); try discriminate; auto.
Qed.

Lemma np_abs_not_nan (x : float64) : x <> NaN -> np_abs x <> NaN.
Proof.
  destruct x; simpl; intros H; try discriminate. now elim H.
Qed.

(** ** The scan of [min] *)

(** What [first_minimum] says: the best item is an item of the list, and no
    item has a smaller key. *)
Lemma first_minimum_In {A : Type} (key : A -> float64) (l : list A)
    (best : A) :
  first_minimum key l best -> In best l.
Proof.
  intros (before & after & -> & _). apply in_elt.
Qed.

Lemma first_minimum_le {A : Type} (key : A -> float64) (l : list A)
    (best : A) :
  first_minimum key l best ->
  key best <> NaN ->
  forall t : A, In t l -> np_le (key best) (key t) = true.
Proof.
  intros (before & after & -> & Hb & Ha) Hnum t Ht.
  rewrite Forall_forall in Hb, Ha.
  apply in_app_or in Ht. destruct Ht as [Ht|[<-|Ht]].
  - apply np_lt_le. now apply Hb.
  - now apply np_le_refl.
  - now apply Ha.
Qed.

Section MinScan.

Context {A : Type}.
Variable key : A -> result float64.

Variable kf : A -> float64.

Lemma min_scan_first_minimum (l : list A) :
  forall (before : list A) (best : A) (after : list A),
    Forall (keyed key kf) (before ++ best :: after) ->
    Forall (keyed key kf) l ->
    Forall (fun t => np_lt (kf best) (kf t) = true) before ->
    Forall (fun t => np_le (kf best) (kf t) = true) after ->
    exists best',
      min_scan key best (kf best) l = Ok best' /\
      first_minimum kf ((before ++ best :: after) ++ l) best'.
Proof.
  induction l as [|x l IH]; intros before best after Hseen Hl Hb Ha.
  - exists best. split; [reflexivity|].
    exists before, after. rewrite app_nil_r. auto.
  - inversion Hl as [|? ? [Hkx Hnx] Hl']; subst.
    assert (Hbest : kf best <> NaN).
    { apply Forall_elt in Hseen. apply Hseen. }
    simpl. rewrite Hkx. simpl.
    destruct (np_lt (kf x) (kf best)) eqn:Hlt.
    + destruct (IH (before ++ best :: after) x []) as [best' [Hrun Hmin]].
      * apply Forall_app. split; [assumption|].
        constructor; [now split|constructor].
      * assumption.
      * apply Forall_app. split.
        -- eapply Forall_impl; [|exact Hb]. simpl. intros t Ht.
           now apply np_lt_trans with (kf best).
        -- constructor; [assumption|].
           eapply Forall_impl; [|exact Ha]. simpl. intros t Ht.
           now apply np_lt_le_trans with (kf best).
      * constructor.
      * exists best'. split; [assumption|].
        now rewrite <- app_assoc in Hmin.
    + destruct (IH before best (after ++ [x])) as [best' [Hrun Hmin]].
      * rewrite app_comm_cons, app_assoc. apply Forall_app.
        split; [assumption|]. constructor; [now split|constructor].
      * assumption.
      * assumption.
      * apply Forall_app. split; [assumption|].
        constructor; [|constructor]. now apply np_lt_false_le.
      * exists best'. split; [assumption|].
        rewrite app_comm_cons, app_assoc, <- app_assoc in Hmin.
        exact Hmin.
Qed.

Lemma py_min_first_minimum (l : list A) :
  l <> [] ->
  Forall (keyed key kf) l ->
  exists best, py_min key l = Ok best /\ first_minimum kf l best.
Proof.
  destruct l as [|x l]; [congruence|]. intros _ Hl.
  inversion Hl as [|? ? [Hkx Hnx] Hl']; subst.
  simpl. rewrite Hkx. simpl.
  apply (min_scan_first_minimum l [] x []); auto.
  constructor; [now split|constructor].
Qed.

End MinScan.

(** ** The fret matcher *)

(** C1 (as amended). On an empty sample set the fret matcher returns an empty
    match list only for an empty fret list; for every non-empty fret list the
    scan [min] of the first fret raises [ValueError]. *)
Theorem find_nearest_fret_points_no_samples :
  forall (F : Type) (frets : list F),
    find_nearest_fret_points [] frets
    = match frets with
      | [] => Ok []
      | _ :: _ => Raise ValueError
      end.
Proof.
  intros F [|fr frets]; reflexivity.
Qed.

(** C1, counterexample. With the single fret 36.37 and no sample the matcher
    raises [ValueError]; it does not return the empty list. *)
Lemma no_samples_raises_ValueError :
  [36.37] <> [] /\
  find_nearest_fret_points [] [36.37] = Raise ValueError /\
  find_nearest_fret_points [] [36.37] <> Ok [].
Proof.
  split; [discriminate|].
  split; [reflexivity|discriminate].
Qed.

Lemma deviation_key_keyed (n i : nat) (t : point) :
  (i < n)%nat -> covers_frets n t ->
  keyed (deviation_key i) (abs_deviation i) t.
Proof.
  intros Hi [Hlen Hnum]. unfold keyed, deviation_key, abs_deviation, getitem.
  assert (Hi' : (i < length (pt_deviation t))%nat) by lia.
  rewrite (nth_error_nth' _ NaN Hi'). simpl. split; [reflexivity|].
  apply np_abs_not_nan.
  rewrite Forall_forall in Hnum. apply Hnum. now apply nth_In.
Qed.

(** The matcher on a sample set that covers the frets. *)
Lemma matcher_first_minimum (F : Type) (points : list point)
    (frets : list F) :
  points <> [] ->
  Forall (covers_frets (length frets)) points ->
  exists matches : list (nat * point),
    find_nearest_fret_points points frets = Ok matches /\
    map fst matches = seq 0 (length frets) /\
    Forall (fun m => first_minimum (abs_deviation (fst m)) points (snd m))
           matches.
Proof.
  intros Hne Hcov. unfold find_nearest_fret_points.
  destruct (comprehension_ok
              (fun '(i, _) =>
                 best <- py_min (deviation_key i) points ;; Ok (i, best))
              (fun (x : nat * F) (m : nat * point) =>
                 fst m = fst x /\
                 first_minimum (abs_deviation (fst m)) points (snd m))
              (enumerate frets)) as [matches [Hrun Hall]].
  - apply Forall_forall. intros [i fr] Hin.
    apply enumerate_index in Hin.
    destruct (py_min_first_minimum (deviation_key i) (abs_deviation i) points)
      as [best [Hbest Hmin]]; [assumption| |].
    + eapply Forall_impl; [|exact Hcov]. intros t Ht.
      now apply deviation_key_keyed with (length frets).
    + exists (i, best). rewrite Hbest. simpl. auto.
  - exists matches. split; [exact Hrun|]. split.
    + rewrite <- enumerate_fst.
      clear Hrun. induction Hall as [|x m l ms [Hfst _] _ IH]; simpl;
        [reflexivity|]. now rewrite Hfst, IH.
    + clear Hrun. induction Hall as [|x m l ms [_ Hmin] _ IH];
        constructor; assumption.
Qed.

(** The samples of the script cover its 13 frets. *)
Lemma points_cover_frets :
  exists (frets : list R) (points : list point),
    Main.frets = Ok frets /\
    Main.points = Ok points /\
    length frets = Main.max_frets /\
    points <> [] /\
    Forall (covers_frets (length frets)) points.
Proof.
  destruct points_ok as (frets & points & Hf & Hp & Hall).
  exists frets, points. repeat split; try assumption.
  - unfold Main.frets in Hf. rewrite fret_positions_ok in Hf.
    injection Hf as Hf. rewrite <- Hf. reflexivity.
  - apply Forall2_length in Hall. intros ->. discriminate.
  - clear Hf Hp. induction Hall as [|ms p steps points Hs _ IH];
      constructor; [|exact IH].
    destruct (sample_ok frets ms) as (f & c & al & be & ga & Hs' & _).
    rewrite Hs' in Hs. injection Hs as <-. split; simpl.
    + now rewrite length_map.
    + apply Forall_forall. intros d Hd.
      apply in_map_iff in Hd. destruct Hd as [fr [<- _]]. discriminate.
Qed.

(** C6. On a non-empty sample set whose samples carry a deviation for every
    fret, the matcher returns one pair per fret, in the order of the fret
    indices, and the sample paired with fret [i] is the first one, in scan
    order, that minimises the absolute value of entry [i] of the deviation
    vector.  The sample set of the script is such a set, scanned in ascending
    pulse-width order: [nearest_fret_points] holds one such pair for each of
    the 13 frets. *)
Theorem find_nearest_fret_points_spec :
  (forall (F : Type) (points : list point) (frets : list F),
      points <> [] ->
      Forall (covers_frets (length frets)) points ->
      exists matches : list (nat * point),
        find_nearest_fret_points points frets = Ok matches /\
        map fst matches = seq 0 (length frets) /\
        Forall (fun m => first_minimum (abs_deviation (fst m)) points (snd m))
               matches) /\
  (exists (frets : list R) (points : list point) (matches : list (nat * point)),
      Main.frets = Ok frets /\
      Main.points = Ok points /\
      Main.nearest_fret_points = Ok matches /\
      map fst matches = seq 0 Main.max_frets /\
      Forall (fun m => first_minimum (abs_deviation (fst m)) points (snd m))
             matches).
Proof.
  split; [exact matcher_first_minimum|].
  destruct points_cover_frets as (frets & points & Hf & Hp & Hn & Hne & Hcov).
  destruct (matcher_first_minimum R points frets Hne Hcov)
    as (matches & Hrun & Hfst & Hmin).
  exists frets, points, matches. unfold Main.nearest_fret_points.
  rewrite Hf, Hp. cbn [bind]. rewrite <- Hn. auto.
Qed.

Lemma find_nearest_fret_points_spec_witness :
  exists matches : list (nat * point),
    find_nearest_fret_points tie_samples [36.37; 70.70] = Ok matches /\
    map fst matches = seq 0 2 /\
    Forall (fun m => first_minimum (abs_deviation (fst m)) tie_samples (snd m))
           matches.
Proof.
  apply (proj1 find_nearest_fret_points_spec R tie_samples [36.37; 70.70]).
  - discriminate.
  - repeat constructor; simpl; try lia; discriminate.
Defined.

(** Decides the comparisons of the absolute values of numerals. *)
Ltac compare_abs :=
  repeat match goal with
         | |- context [Rltb ?x ?y] =>
             first
               [ rewrite (proj2 (Rltb_true x y))
                   by (unfold Rabs; repeat destruct Rcase_abs; lra)
               | rewrite (proj2 (Rltb_false x y))
                   by (unfold Rabs; repeat destruct Rcase_abs; lra) ]
         end.

(** On a tie the sample scanned first is kept: fret 0 is matched with the
    second sample (deviation -2, before the 2 of the third), fret 1 with the
    first (deviation -1, before the 1 of the second). *)
Example find_nearest_fret_points_tie :
  find_nearest_fret_points tie_samples [36.37; 70.70]
  = Ok [(0%nat, tie_sample (-2) 1); (1%nat, tie_sample 3 (-1))].
Proof.
  unfold find_nearest_fret_points, tie_samples, enumerate, py_min.
  cbn [length seq combine comprehension min_scan deviation_key getitem
       nth_error bind tie_sample pt_deviation np_abs np_lt].
  compare_abs. reflexivity.
Qed.

(** * Further properties of the functions *)

(** ** Cents *)

Lemma cent_difference_value (f1 f2 : R) :
  0 < f1 -> 0 < f2 ->
  calculate_cent_difference (Num f1) (Num f2)
  = Ok (Num (1200 * log2 (Rmax f1 f2 / Rmin f1 f2))).
Proof.
  intros H1 H2. unfold calculate_cent_difference. simpl np_lt.
  destruct (Rltb f2 f1) eqn:Hlt.
  - apply Rltb_true in Hlt. rewrite Rmax_left, Rmin_right by lra.
    rewrite np_div_num by lra.
    rewrite np_log2_num; [reflexivity|]. now apply Rdiv_lt_0_compat.
  - apply Rltb_false in Hlt. rewrite Rmax_right, Rmin_left by lra.
    rewrite np_div_num by lra.
    rewrite np_log2_num; [reflexivity|]. now apply Rdiv_lt_0_compat.
Qed.

Lemma Rmax_over_Rmin (f1 f2 : R) :
  0 < f1 -> 0 < f2 -> 1 <= Rmax f1 f2 / Rmin f1 f2.
Proof.
  intros H1 H2.
  assert (Hmin : 0 < Rmin f1 f2) by now apply Rmin_glb_lt.
  apply Rmult_le_reg_r with (Rmin f1 f2); [assumption|].
  unfold Rdiv. rewrite Rmult_assoc, Rinv_l by lra.
  pose proof (Rminmax f1 f2). lra.
Qed.

Lemma log2_mult (x y : R) : 0 < x -> 0 < y -> log2 (x * y) = log2 x + log2 y.
Proof.
  intros Hx Hy. unfold log2. rewrite ln_mult by assumption.
  pose proof ln2_pos. field. lra.
Qed.

Lemma log2_half_step_pow (k : nat) : log2 (half_step_factor ^ k) = INR k / 12.
Proof.
  unfold log2. rewrite ln_pow by apply half_step_factor_pos.
  unfold half_step_factor. rewrite ln_Rpower.
  pose proof ln2_pos. field. lra.
Qed.

Lemma log2_eq_0 (x : R) : 0 < x -> log2 x = 0 -> x = 1.
Proof.
  intros Hx H. unfold log2 in H. pose proof ln2_pos as H2.
  destruct (Req_dec_T x 1) as [E|E]; [assumption|].
  apply (Rmult_eq_compat_r (ln 2)) in H.
  unfold Rdiv in H. rewrite Rmult_assoc, Rinv_l, Rmult_1_r, Rmult_0_l in H
    by lra.
  now apply ln_neq_0 in H.
Qed.

(** X1. Frequencies [k] equal-tempered semitones apart differ by [100 * k]
    cents, in either order of the arguments; an octave is 1200 cents. *)
Theorem cent_difference_semitones :
  forall (f : R) (k : nat),
    0 < f ->
    calculate_cent_difference (Num (f * half_step_factor ^ k)) (Num f)
    = Ok (Num (100 * INR k)) /\
    calculate_cent_difference (Num f) (Num (f * half_step_factor ^ k))
    = Ok (Num (100 * INR k)) /\
    calculate_cent_difference (Num (2 * f)) (Num f) = Ok (Num 1200).
Proof.
  intros f k Hf.
  assert (Hk : forall n : nat,
            calculate_cent_difference (Num (f * half_step_factor ^ n)) (Num f)
            = Ok (Num (100 * INR n)) /\
            calculate_cent_difference (Num f) (Num (f * half_step_factor ^ n))
            = Ok (Num (100 * INR n))).
  { intros n.
    assert (Hp : 1 <= half_step_factor ^ n).
    { apply pow_R1_Rle. pose proof half_step_factor_gt_1. lra. }
    assert (Hfp : 0 < f * half_step_factor ^ n) by nra.
    assert (Hv : 1200 * log2 (f * half_step_factor ^ n / f) = 100 * INR n).
    { replace (f * half_step_factor ^ n / f) with (half_step_factor ^ n)
        by (field; lra).
      rewrite log2_half_step_pow. field. }
    split; rewrite cent_difference_value by assumption.
    - rewrite Rmax_left, Rmin_right by nra. now rewrite Hv.
    - rewrite Rmax_right, Rmin_left by nra. now rewrite Hv. }
  split; [apply Hk|]. split; [apply Hk|].
  destruct (Hk 12%nat) as [H12 _].
  rewrite half_step_factor_twelfth_root in H12.
  replace (f * 2) with (2 * f) in H12 by ring. rewrite H12.
  do 2 f_equal. simpl. lra.
Qed.

Lemma cent_difference_semitones_witness :
  calculate_cent_difference (Num (440 * half_step_factor ^ 3)) (Num 440)
  = Ok (Num (100 * INR 3)).
Proof.
  apply (cent_difference_semitones 440 3). lra.
Defined.

(** X2. The difference in cents depends on the ratio of the frequencies
    only: scaling both by a positive factor does not change it. *)
Theorem cent_difference_scale :
  forall k f1 f2 : R,
    0 < k -> 0 < f1 -> 0 < f2 ->
    calculate_cent_difference (Num (k * f1)) (Num (k * f2))
    = calculate_cent_difference (Num f1) (Num f2).
Proof.
  intros k f1 f2 Hk H1 H2.
  rewrite !cent_difference_value by nra.
  destruct (Rle_lt_dec f1 f2) as [H|H].
  - rewrite !Rmax_right, !Rmin_left by nra.
    now replace (k * f2 / (k * f1)) with (f2 / f1) by (field; lra).
  - rewrite !Rmax_left, !Rmin_right by nra.
    now replace (k * f1 / (k * f2)) with (f1 / f2) by (field; lra).
Qed.

Lemma cent_difference_scale_witness :
  calculate_cent_difference (Num (2 * 440)) (Num (2 * 330))
  = calculate_cent_difference (Num 440) (Num 330).
Proof.
  apply (cent_difference_scale 2 440 330); lra.
Defined.

(** X3. Along increasing frequencies the differences add up: from [f1] to
    [f3] it is the difference from [f1] to [f2] plus that from [f2] to
    [f3]. *)
Theorem cent_difference_additive :
  forall f1 f2 f3 : R,
    0 < f1 -> f1 <= f2 -> f2 <= f3 ->
    exists c12 c23 : R,
      calculate_cent_difference (Num f1) (Num f2) = Ok (Num c12) /\
      calculate_cent_difference (Num f2) (Num f3) = Ok (Num c23) /\
      calculate_cent_difference (Num f1) (Num f3) = Ok (Num (c12 + c23)).
Proof.
  intros f1 f2 f3 H1 H12 H23.
  exists (1200 * log2 (f2 / f1)), (1200 * log2 (f3 / f2)).
  rewrite !cent_difference_value by lra.
  rewrite !Rmax_right, !Rmin_left by lra.
  repeat split. do 2 f_equal.
  rewrite <- Rmult_plus_distr_l, <- log2_mult.
  - now replace (f2 / f1 * (f3 / f2)) with (f3 / f1) by (field; lra).
  - apply Rdiv_lt_0_compat; lra.
  - apply Rdiv_lt_0_compat; lra.
Qed.

Lemma cent_difference_additive_witness :
  exists c12 c23 : R,
    calculate_cent_difference (Num 220) (Num 330) = Ok (Num c12) /\
    calculate_cent_difference (Num 330) (Num 440) = Ok (Num c23) /\
    calculate_cent_difference (Num 220) (Num 440) = Ok (Num (c12 + c23)).
Proof.
  apply (cent_difference_additive 220 330 440); lra.
Defined.

(** X4. Two positive frequencies differ by zero cents exactly when they are
    equal. *)
Theorem cent_difference_zero_iff :
  forall f1 f2 : R,
    0 < f1 -> 0 < f2 ->
    (calculate_cent_difference (Num f1) (Num f2) = Ok (Num 0) <-> f1 = f2).
Proof.
  intros f1 f2 H1 H2. rewrite cent_difference_value by assumption. split.
  - intros H. injection H as H.
    assert (Hmin : 0 < Rmin f1 f2) by now apply Rmin_glb_lt.
    assert (Hmax : 0 < Rmax f1 f2).
    { pose proof (Rminmax f1 f2). lra. }
    assert (Hr : Rmax f1 f2 / Rmin f1 f2 = 1).
    { apply log2_eq_0; [now apply Rdiv_lt_0_compat|lra]. }
    assert (He : Rmax f1 f2 = Rmin f1 f2).
    { apply (Rmult_eq_compat_r (Rmin f1 f2)) in Hr.
      unfold Rdiv in Hr. rewrite Rmult_assoc, Rinv_l in Hr by lra. lra. }
    pose proof (Rmax_l f1 f2). pose proof (Rmax_r f1 f2).
    pose proof (Rmin_l f1 f2). pose proof (Rmin_r f1 f2). lra.
  - intros <-. rewrite Rmax_left, Rmin_left by lra.
    replace (f1 / f1) with 1 by (field; lra).
    rewrite log2_1. do 2 f_equal. ring.
Qed.

Lemma cent_difference_zero_iff_witness :
  calculate_cent_difference (Num 440) (Num 440) = Ok (Num 0) <-> 440 = 440.
Proof.
  apply (cent_difference_zero_iff 440 440); lra.
Defined.

Lemma scale_inf_pos (negative : bool) (u : R) :
  0 < u -> scale_inf negative u = Inf negative.
Proof.
  intros Hu. unfold scale_inf. destruct (Rlt_dec 0 u); [reflexivity|lra].
Qed.

Lemma scale_inf_zero (negative : bool) : scale_inf negative 0 = NaN.
Proof.
  unfold scale_inf. destruct (Rlt_dec 0 0); [lra|reflexivity].
Qed.

Lemma np_div_zero_pos (u : R) : 0 < u -> np_div (Num u) (Num 0) = Inf false.
Proof.
  intros Hu. simpl. destruct (Req_dec_T 0 0) as [_|H]; [|now elim H].
  now apply scale_inf_pos.
Qed.

Lemma np_log2_negative (u : R) : u < 0 -> np_log2 (Num u) = NaN.
Proof.
  intros Hu. simpl. destruct (Rlt_dec 0 u); [lra|].
  destruct (Rlt_dec u 0); [reflexivity|lra].
Qed.

(** X5. Outside the positive frequencies the difference is no longer a
    non-negative number: for frequencies of opposite sign it is nan, and for
    two negative frequencies it is the negated difference of their absolute
    values. *)
Theorem cent_difference_negative :
  forall f1 f2 : R,
    0 < f1 -> 0 < f2 ->
    calculate_cent_difference (Num (- f1)) (Num f2) = Ok NaN /\
    calculate_cent_difference (Num f1) (Num (- f2)) = Ok NaN /\
    calculate_cent_difference (Num (- f1)) (Num (- f2))
    = Ok (Num (- (1200 * log2 (Rmax f1 f2 / Rmin f1 f2)))) /\
    - (1200 * log2 (Rmax f1 f2 / Rmin f1 f2)) <= 0.
Proof.
  intros f1 f2 H1 H2. unfold calculate_cent_difference. simpl np_lt.
  assert (Hneg : forall x y : R, 0 < x -> 0 < y -> - x / y < 0).
  { intros x y Hx Hy. unfold Rdiv. rewrite <- Ropp_mult_distr_l.
    apply Ropp_lt_gt_0_contravar. now apply Rdiv_lt_0_compat. }
  assert (Hneg' : forall x y : R, 0 < x -> 0 < y -> x / - y < 0).
  { intros x y Hx Hy.
    replace (x / - y) with (- x / y) by (field; lra). now apply Hneg. }
  assert (Hlog : forall x y : R, 0 < x -> 0 < y ->
            log2 (x / y) = - log2 (y / x)).
  { intros x y Hx Hy.
    replace (x / y) with (/ (y / x)) by (field; lra).
    unfold log2. rewrite ln_Rinv by now apply Rdiv_lt_0_compat.
    pose proof ln2_pos. field. lra. }
  split; [|split; [|split]].
  - rewrite (proj2 (Rltb_false f2 (- f1))) by lra.
    rewrite np_div_num by lra. rewrite np_log2_negative; [reflexivity|].
    now apply Hneg'.
  - rewrite (proj2 (Rltb_true (- f2) f1)) by lra.
    rewrite np_div_num by lra. rewrite np_log2_negative; [reflexivity|].
    now apply Hneg'.
  - destruct (Rltb (- f2) (- f1)) eqn:Hlt.
    + apply Rltb_true in Hlt.
      rewrite np_div_num by lra.
      replace (- f1 / - f2) with (f1 / f2) by (field; lra).
      rewrite np_log2_num by now apply Rdiv_lt_0_compat.
      rewrite Rmax_right, Rmin_left by lra.
      rewrite (Hlog f1 f2) by assumption. simpl. do 2 f_equal. ring.
    + apply Rltb_false in Hlt.
      rewrite np_div_num by lra.
      replace (- f2 / - f1) with (f2 / f1) by (field; lra).
      rewrite np_log2_num by now apply Rdiv_lt_0_compat.
      rewrite Rmax_left, Rmin_right by lra.
      rewrite (Hlog f2 f1) by assumption. simpl. do 2 f_equal. ring.
  - assert (0 <= 1200 * log2 (Rmax f1 f2 / Rmin f1 f2)); [|lra].
    apply Rmult_le_pos; [lra|]. apply log2_nonneg.
    now apply Rmax_over_Rmin.
Qed.

Lemma cent_difference_negative_witness :
  calculate_cent_difference (Num (- 440)) (Num 220) = Ok NaN.
Proof.
  apply (cent_difference_negative 440 220); lra.
Defined.

(** X6. The quotient of the two frequencies is numpy's, so a zero frequency
    does not raise: against a positive frequency the difference is [+inf], in
    either order, and two zero frequencies give nan. *)
Theorem cent_difference_zero_frequency :
  forall f : R,
    0 < f ->
    calculate_cent_difference (Num f) (Num 0) = Ok (Inf false) /\
    calculate_cent_difference (Num 0) (Num f) = Ok (Inf false) /\
    calculate_cent_difference (Num 0) (Num 0) = Ok NaN.
Proof.
  intros f Hf. unfold calculate_cent_difference. simpl np_lt.
  rewrite (proj2 (Rltb_true 0 f)) by assumption.
  rewrite (proj2 (Rltb_false f 0)) by lra.
  rewrite (proj2 (Rltb_false 0 0)) by lra.
  rewrite np_div_zero_pos by assumption. simpl np_log2. simpl np_mul.
  rewrite scale_inf_pos by lra. repeat split.
  destruct (Req_dec_T 0 0) as [_|H]; [|now elim H].
  now rewrite scale_inf_zero.
Qed.

Lemma cent_difference_zero_frequency_witness :
  calculate_cent_difference (Num 440) (Num 0) = Ok (Inf false).
Proof.
  apply (cent_difference_zero_frequency 440). lra.
Defined.

(** ** Pulse width to angle, again *)

(** X7. For a positive [precision] and a non-zero [max_degrees] the angle is
    never negative and does not decrease when the pulse width grows. *)
Theorem get_micros_as_degree_monotone :
  forall micros1 micros2 precision max_degrees : R,
    0 < precision -> max_degrees <> 0 -> micros1 <= micros2 ->
    exists beta1 beta2 : R,
      get_micros_as_degree micros1 precision max_degrees = Ok beta1 /\
      get_micros_as_degree micros2 precision max_degrees = Ok beta2 /\
      0 <= beta1 <= beta2.
Proof.
  intros m1 m2 p d Hp Hd Hm.
  assert (Hval : forall m : R,
            get_micros_as_degree m p d
            = Ok (if Rlt_dec 0 m then m / p else 0)).
  { intros m. unfold get_micros_as_degree.
    destruct (Rlt_dec 0 m); [|reflexivity].
    rewrite py_div_ok by assumption. cbn [bind].
    rewrite py_div_ok by lra. f_equal. field. split; lra. }
  assert (Hdiv : forall m : R, 0 < m -> 0 < m / p).
  { intros m Hm0. now apply Rdiv_lt_0_compat. }
  exists (if Rlt_dec 0 m1 then m1 / p else 0),
         (if Rlt_dec 0 m2 then m2 / p else 0).
  split; [apply Hval|]. split; [apply Hval|].
  destruct (Rlt_dec 0 m1) as [H1|H1], (Rlt_dec 0 m2) as [H2|H2]; try lra.
  - split; [left; now apply Hdiv|].
    unfold Rdiv. apply Rmult_le_compat_r; [|assumption].
    left. now apply Rinv_0_lt_compat.
  - split; [lra|]. left. now apply Hdiv.
Qed.

Lemma get_micros_as_degree_monotone_witness :
  exists beta1 beta2 : R,
    get_micros_as_degree 10 10 180 = Ok beta1 /\
    get_micros_as_degree 20 10 180 = Ok beta2 /\
    0 <= beta1 <= beta2.
Proof.
  apply (get_micros_as_degree_monotone 10 20 10 180); lra.
Defined.

(** ** The law of sines, again *)

Lemma np_div_by_zero_not_num (x : float64) (u : R) :
  np_div x (Num 0) <> Num u.
Proof.
  destruct x as [v|n|]; simpl; try discriminate.
  - destruct (Req_dec_T 0 0) as [_|H]; [apply scale_inf_not_num|now elim H].
  - destruct (Rlt_dec 0 0); discriminate.
Qed.

Lemma not_num_outside (x : float64) :
  (forall u : R, x <> Num u) -> ~ in_unit_interval x.
Proof.
  intros Hx [u [Hu _]]. now apply (Hx u).
Qed.

(** X8. A zero side [b] does not raise a division error: the quotient is an
    infinity or nan, and the call returns nan whatever [a] and [beta] are. *)
Theorem calculate_alpha_zero_divisor :
  forall a beta : float64, calculate_alpha a (Num 0) beta = Ok NaN.
Proof.
  intros a beta. rewrite calculate_alpha_unfold.
  rewrite np_arcsin_outside; [reflexivity|].
  apply not_num_outside. intros u. apply np_div_by_zero_not_num.
Qed.

Lemma np_arcsin_cases (x : float64) :
  np_arcsin x = NaN \/
  exists u : R, -1 <= u <= 1 /\ x = Num u /\ np_arcsin x = Num (asin u).
Proof.
  destruct x as [u|n|]; simpl; auto.
  destruct (Rle_dec (-1) u); auto. destruct (Rle_dec u 1); auto.
  right. exists u. auto.
Qed.

Lemma degrees_of_asin (u : R) : -90 <= asin u * (180 / PI) <= 90.
Proof.
  pose proof (asin_bound u) as [Hl Hu]. pose proof PI_RGT_0 as Hpi.
  assert (Hk : 0 < 180 / PI) by (apply Rdiv_lt_0_compat; lra).
  assert (E : PI / 2 * (180 / PI) = 90) by (field; lra).
  split.
  - replace (-90) with (- (PI / 2) * (180 / PI)) by lra.
    apply Rmult_le_compat_r; lra.
  - rewrite <- E. apply Rmult_le_compat_r; lra.
Qed.

(** X9. The call returns nan or an angle between -90 and 90 degrees: never an
    infinity, never an obtuse angle. *)
Theorem calculate_alpha_range :
  forall a b beta : float64,
    calculate_alpha a b beta = Ok NaN \/
    exists alpha : R,
      calculate_alpha a b beta = Ok (Num alpha) /\ -90 <= alpha <= 90.
Proof.
  intros a b beta. rewrite calculate_alpha_unfold.
  destruct (np_arcsin_cases (arcsin_argument a b beta))
    as [->|(u & Hu & _ & ->)].
  - now left.
  - right. exists (asin u * (180 / PI)). split; [reflexivity|].
    apply degrees_of_asin.
Qed.

Lemma sin_supplementary (beta : R) :
  sin ((180 - beta) * (PI / 180)) = sin (beta * (PI / 180)).
Proof.
  replace ((180 - beta) * (PI / 180)) with (PI - beta * (PI / 180))
    by (field; apply PI_neq0).
  apply sin_PI_x.
Qed.

(** X10. Supplementary angles [beta] and [180 - beta] give the same
    [alpha]. *)
Theorem calculate_alpha_supplementary :
  forall (a b : float64) (beta : R),
    calculate_alpha a b (Num (180 - beta)) = calculate_alpha a b (Num beta).
Proof.
  intros a b beta. unfold calculate_alpha. simpl np_deg2rad. simpl np_sin.
  now rewrite sin_supplementary.
Qed.

(** X11. The call inverts the law of sines: when [a * sin(beta)] is
    [b * sin(alpha)] for an angle [alpha] between -90 and 90 degrees it
    returns that [alpha], and for an angle between 90 and 270 degrees it
    returns the acute solution [180 - alpha]. *)
Theorem calculate_alpha_inverse :
  forall a b alpha beta : R,
    b <> 0 ->
    a * sin (beta * (PI / 180)) = b * sin (alpha * (PI / 180)) ->
    (-90 <= alpha <= 90 ->
     calculate_alpha (Num a) (Num b) (Num beta) = Ok (Num alpha)) /\
    (90 <= alpha <= 270 ->
     calculate_alpha (Num a) (Num b) (Num beta) = Ok (Num (180 - alpha))).
Proof.
  intros a b alpha beta Hb Hlaw.
  assert (Hacute : forall x : R,
            -90 <= x <= 90 ->
            sin (x * (PI / 180)) = sin (alpha * (PI / 180)) ->
            calculate_alpha (Num a) (Num b) (Num beta) = Ok (Num x)).
  { intros x Hx Hsin.
    rewrite calculate_alpha_unfold, arcsin_argument_num by assumption.
    replace (a * sin (beta * (PI / 180)) / b) with (sin (x * (PI / 180)))
      by (rewrite Hlaw, Hsin; field; assumption).
    rewrite np_arcsin_num by apply SIN_bound.
    pose proof PI_RGT_0 as Hpi.
    rewrite asin_sin.
    - simpl. do 2 f_equal. field. lra.
    - replace (PI / 2) with (90 * (PI / 180)) by (field; lra).
      assert (0 < PI / 180) by (apply Rdiv_lt_0_compat; lra).
      split; nra. }
  split; intros Halpha.
  - now apply Hacute.
  - apply Hacute; [lra|]. apply sin_supplementary.
Qed.

Lemma calculate_alpha_inverse_witness :
  calculate_alpha (Num 5) (Num 5) (Num 30) = Ok (Num 30).
Proof.
  apply (calculate_alpha_inverse 5 5 30 30); lra.
Defined.

(** ** The fret matcher, again *)

Lemma deviation_key_ok (i : nat) (t : point) :
  (i < length (pt_deviation t))%nat ->
  deviation_key i t = Ok (abs_deviation i t).
Proof.
  intros Hi. unfold deviation_key, abs_deviation, getitem.
  now rewrite (nth_error_nth' _ NaN Hi).
Qed.

Lemma deviation_key_short (i : nat) (t : point) :
  (length (pt_deviation t) <= i)%nat ->
  deviation_key i t = Raise IndexError.
Proof.
  intros Hi. unfold deviation_key, getitem.
  apply nth_error_None in Hi. now rewrite Hi.
Qed.

(** The key raises nothing but [IndexError], and does so exactly on a short
    deviation vector. *)
Lemma deviation_key_raise (i : nat) (t : point) (err : exn) :
  deviation_key i t = Raise err ->
  err = IndexError /\ (length (pt_deviation t) <= i)%nat.
Proof.
  intros H. destruct (Nat.lt_ge_cases i (length (pt_deviation t))) as [Hi|Hi].
  - rewrite deviation_key_ok in H by assumption. discriminate.
  - rewrite deviation_key_short in H by assumption. injection H as <-. auto.
Qed.

Section Scan.

Context {A : Type}.
Variable key : A -> result float64.

(** A scan returns one of the items it has seen after computing every key,
    or stops at the first key that raises. *)
Lemma min_scan_cases (l : list A) :
  forall (best : A) (best_key : float64),
    (exists r : A,
        min_scan key best best_key l = Ok r /\
        (r = best \/ In r l) /\
        Forall (fun t => exists k, key t = Ok k) l) \/
    (exists (t : A) (err : exn),
        In t l /\ key t = Raise err /\
        min_scan key best best_key l = Raise err).
Proof.
  induction l as [|x l IH]; intros best best_key; simpl.
  - left. exists best. auto.
  - destruct (key x) as [k|err] eqn:Hk; simpl.
    + destruct (np_lt k best_key).
      * destruct (IH x k) as [(r & Hr & Hin & Hall)|(t & err & Hin & Ht & Hr)].
        -- left. exists r. repeat split; [assumption| |].
           ++ right. destruct Hin as [->|Hin]; auto.
           ++ constructor; eauto.
        -- right. exists t, err. auto.
      * destruct (IH best best_key)
          as [(r & Hr & Hin & Hall)|(t & err & Hin & Ht & Hr)].
        -- left. exists r. repeat split; [assumption| |].
           ++ destruct Hin as [->|Hin]; auto.
           ++ constructor; eauto.
        -- right. exists t, err. auto.
    + right. exists x, err. auto.
Qed.

Lemma py_min_cases (l : list A) :
  (l = [] /\ py_min key l = Raise ValueError) \/
  (exists r : A,
      py_min key l = Ok r /\ In r l /\
      Forall (fun t => exists k, key t = Ok k) l) \/
  (exists (t : A) (err : exn),
      In t l /\ key t = Raise err /\ py_min key l = Raise err).
Proof.
  destruct l as [|x l]; [now left|]. right. simpl.
  destruct (key x) as [k|err] eqn:Hk; simpl.
  - destruct (min_scan_cases l x k)
      as [(r & Hr & Hin & Hall)|(t & err & Hin & Ht & Hr)].
    + left. exists r. repeat split; [assumption| |].
      * destruct Hin as [->|Hin]; auto.
      * constructor; eauto.
    + right. exists t, err. auto.
  - right. exists x, err. auto.
Qed.

(** A best key that is nan is never replaced. *)
Lemma min_scan_nan (l : list A) (best : A) :
  Forall (fun t => exists k, key t = Ok k) l ->
  min_scan key best NaN l = Ok best.
Proof.
  induction 1 as [|x l [k Hk] _ IH]; simpl; [reflexivity|].
  rewrite Hk. simpl. now destruct k.
Qed.

(** A best key that is not nan is only replaced by keys that are not nan. *)
Lemma min_scan_not_nan (kf : A -> float64) (l : list A) :
  forall (best r : A),
    Forall (fun t => key t = Ok (kf t)) l ->
    kf best <> NaN ->
    min_scan key best (kf best) l = Ok r ->
    kf r <> NaN.
Proof.
  induction l as [|x l IH]; intros best r Hl Hbest; simpl.
  - intros H. now injection H as <-.
  - inversion Hl as [|? ? Hx Hl']; subst. rewrite Hx. simpl.
    destruct (np_lt (kf x) (kf best)) eqn:Hlt.
    + apply IH; [assumption|]. intros Hnan. rewrite Hnan in Hlt. discriminate.
    + now apply IH.
Qed.

End Scan.

Lemma comprehension_raise {A B : Type} (body : A -> result B)
    (l : list A) (err : exn) :
  comprehension body l = Raise err ->
  exists x : A, In x l /\ body x = Raise err.
Proof.
  induction l as [|x l IH]; simpl; [discriminate|].
  destruct (body x) as [y|e] eqn:Hy; simpl.
  - destruct (comprehension body l) as [ys|e]; simpl; [discriminate|].
    intros H. injection H as <-.
    destruct IH as [x' [Hin Hx']]; [reflexivity|]. exists x'. auto.
  - intros H. injection H as <-. exists x. auto.
Qed.

(** The match of one fret. *)
Lemma match_ok (i : nat) (points : list point) (m : nat * point) :
  (best <- py_min (deviation_key i) points ;; Ok (i, best)) = Ok m ->
  fst m = i /\ py_min (deviation_key i) points = Ok (snd m).
Proof.
  destruct (py_min (deviation_key i) points) as [best|]; simpl;
    [|discriminate].
  intros H. now injection H as <-.
Qed.

Lemma match_raise (i : nat) (points : list point) (err : exn) :
  (best <- py_min (deviation_key i) points ;; Ok (i, best)) = Raise err ->
  py_min (deviation_key i) points = Raise err.
Proof.
  destruct (py_min (deviation_key i) points) as [best|]; simpl;
    [discriminate|].
  intros H. now injection H as <-.
Qed.

Lemma matches_Forall2 {F : Type} (points : list point) (frets : list F)
    (matches : list (nat * point)) :
  find_nearest_fret_points points frets = Ok matches ->
  Forall2 (fun (x : nat * F) (m : nat * point) =>
             fst m = fst x /\
             py_min (deviation_key (fst x)) points = Ok (snd m))
          (enumerate frets) matches.
Proof.
  intros H. apply comprehension_Forall2 in H.
  induction H as [|[i fr] m l ms Hm _ IH]; constructor; [|exact IH].
  now apply match_ok.
Qed.

Lemma Forall2_fst {F : Type} (P : nat -> point -> Prop)
    (l : list (nat * F)) (matches : list (nat * point)) :
  Forall2 (fun x m => fst m = fst x /\ P (fst x) (snd m)) l matches ->
  map fst matches = map fst l /\
  Forall (fun m => P (fst m) (snd m)) matches.
Proof.
  induction 1 as [|x m l ms [Hfst HP] _ [IH1 IH2]]; simpl.
  - split; [reflexivity|constructor].
  - split; [now rewrite Hfst, IH1|].
    constructor; [now rewrite Hfst|assumption].
Qed.

(** X12. Whatever the samples hold, a match list that is returned has one
    entry per fret, indexed 0, 1, .. in order, and every matched sample is
    one of the samples given. *)
Theorem find_nearest_fret_points_members :
  forall (F : Type) (points : list point) (frets : list F)
         (matches : list (nat * point)),
    find_nearest_fret_points points frets = Ok matches ->
    length matches = length frets /\
    map fst matches = seq 0 (length frets) /\
    Forall (fun m => In (snd m) points) matches.
Proof.
  intros F points frets matches H.
  assert (Hlen : length matches = length frets).
  { apply comprehension_length in H. rewrite H. unfold enumerate.
    rewrite length_combine, length_seq. apply Nat.min_id. }
  apply matches_Forall2 in H.
  destruct (Forall2_fst (fun _ best => In best points) (enumerate frets)
              matches) as [Hfst Hin].
  - eapply Forall2_impl; [|exact H]. simpl. intros [i fr] m [Hi Hmin].
    split; [assumption|].
    destruct (py_min_cases (deviation_key i) points)
      as [[_ Hr]|[(r & Hr & Hin & _)|(t & err & _ & _ & Hr)]];
      simpl in Hmin; rewrite Hr in Hmin; try discriminate.
    now injection Hmin as <-.
  - rewrite enumerate_fst in Hfst. auto.
Qed.

Lemma find_nearest_fret_points_members_witness :
  length [(0%nat, tie_sample (-2) 1); (1%nat, tie_sample 3 (-1))]
  = length [36.37; 70.70] /\
  map fst [(0%nat, tie_sample (-2) 1); (1%nat, tie_sample 3 (-1))]
  = seq 0 (length [36.37; 70.70]) /\
  Forall (fun m => In (snd m) tie_samples)
         [(0%nat, tie_sample (-2) 1); (1%nat, tie_sample 3 (-1))].
Proof.
  apply (find_nearest_fret_points_members R tie_samples [36.37; 70.70]).
  exact find_nearest_fret_points_tie.
Defined.

Lemma enumerate_In {A : Type} (l : list A) (i : nat) :
  (i < length l)%nat -> exists x : A, In (i, x) (enumerate l).
Proof.
  unfold enumerate.
  assert (H : forall (s : nat),
            (i < length l)%nat ->
            exists x : A, In ((s + i)%nat, x) (combine (seq s (length l)) l)).
  { revert i. induction l as [|y l IH]; intros i s Hi; simpl in *; [lia|].
    destruct i as [|i].
    - exists y. left. f_equal. lia.
    - destruct (IH i (S s)) as [x Hx]; [lia|].
      exists x. right. now replace (s + S i)%nat with (S s + i)%nat by lia. }
  intros Hi. now apply (H 0%nat).
Qed.

Lemma Forall2_In_l {A B : Type} (P : A -> B -> Prop) (l : list A)
    (l' : list B) (x : A) :
  Forall2 P l l' -> In x l -> exists y : B, In y l' /\ P x y.
Proof.
  induction 1 as [|a b l l' Hab _ IH]; simpl; [contradiction|].
  intros [->|Hin].
  - exists b. auto.
  - destruct (IH Hin) as [y [Hy HP]]. exists y. auto.
Qed.

(** What can go wrong in the matcher. *)
Lemma matcher_raise_cases {F : Type} (points : list point) (frets : list F)
    (err : exn) :
  find_nearest_fret_points points frets = Raise err ->
  (err = ValueError /\ points = [] /\ frets <> []) \/
  (err = IndexError /\
   exists t : point,
     In t points /\ (length (pt_deviation t) < length frets)%nat).
Proof.
  intros H. apply comprehension_raise in H.
  destruct H as [[i fr] [Hin H]]. apply match_raise in H.
  assert (Hi : (i < length frets)%nat) by now apply enumerate_index in Hin.
  destruct (py_min_cases (deviation_key i) points)
    as [[Hnil Hr]|[(r & Hr & _)|(t & e & Ht & Hkey & Hr)]];
    rewrite Hr in H; try discriminate; injection H as <-.
  - left. repeat split; [assumption|]. intros ->. simpl in Hi. lia.
  - right. apply deviation_key_raise in Hkey. destruct Hkey as [-> Hlen].
    split; [reflexivity|]. exists t. split; [assumption|lia].
Qed.

(** X13. The matcher fails in two ways only: with [ValueError] when there is
    no sample for a non-empty fret list, and with [IndexError] when a sample
    has fewer deviations than there are frets.  On a non-empty sample set
    whose deviation vectors are long enough it returns a match list, whatever
    the deviations are (nan and infinities included). *)
Theorem find_nearest_fret_points_failures :
  forall (F : Type) (points : list point) (frets : list F),
    (forall err : exn,
        find_nearest_fret_points points frets = Raise err ->
        (err = ValueError /\ points = [] /\ frets <> []) \/
        (err = IndexError /\
         exists t : point,
           In t points /\ (length (pt_deviation t) < length frets)%nat)) /\
    (points <> [] ->
     Forall (fun t => (length frets <= length (pt_deviation t))%nat) points ->
     exists matches : list (nat * point),
       find_nearest_fret_points points frets = Ok matches).
Proof.
  intros F points frets. split; [apply matcher_raise_cases|].
  intros Hne Hlen.
  destruct (find_nearest_fret_points points frets) as [matches|err] eqn:H;
    [eauto|].
  apply matcher_raise_cases in H.
  destruct H as [(_ & Hnil & _)|(_ & t & Hin & Hshort)]; [contradiction|].
  rewrite Forall_forall in Hlen. apply Hlen in Hin. lia.
Qed.

Lemma find_nearest_fret_points_failures_witness :
  exists matches : list (nat * point),
    find_nearest_fret_points tie_samples [36.37; 70.70] = Ok matches.
Proof.
  apply (proj2 (find_nearest_fret_points_failures R tie_samples [36.37; 70.70])).
  - discriminate.
  - repeat constructor.
Defined.

(** X14. A sample with fewer deviations than there are frets makes the
    matcher raise [IndexError], wherever the sample stands in a non-empty
    sample set. *)
Theorem find_nearest_fret_points_short_vector :
  forall (F : Type) (points : list point) (frets : list F) (t : point),
    In t points ->
    (length (pt_deviation t) < length frets)%nat ->
    find_nearest_fret_points points frets = Raise IndexError.
Proof.
  intros F points frets t Hin Hshort.
  destruct (find_nearest_fret_points points frets) as [matches|err] eqn:H.
  - exfalso. apply matches_Forall2 in H.
    destruct (enumerate_In frets (length (pt_deviation t)) Hshort)
      as [fr Hfr].
    destruct (Forall2_In_l _ _ _ _ H Hfr) as [m [_ [_ Hmin]]].
    simpl in Hmin.
    destruct (py_min_cases (deviation_key (length (pt_deviation t))) points)
      as [[_ Hr]|[(r & _ & _ & Hall)|(t' & e & _ & _ & Hr)]];
      try (rewrite Hr in Hmin; discriminate).
    rewrite Forall_forall in Hall. destruct (Hall t Hin) as [k Hk].
    rewrite deviation_key_short in Hk by lia. discriminate.
  - apply matcher_raise_cases in H.
    destruct H as [(_ & -> & _)|(-> & _)]; [contradiction|reflexivity].
Qed.

Lemma find_nearest_fret_points_short_vector_witness :
  find_nearest_fret_points tie_samples [36.37; 70.70; 102.80]
  = Raise IndexError.
Proof.
  apply (find_nearest_fret_points_short_vector R tie_samples
           [36.37; 70.70; 102.80] (tie_sample 2 5)).
  - simpl. auto.
  - simpl. lia.
Defined.

Lemma np_abs_nan_inv (x : float64) : np_abs x = NaN -> x = NaN.
Proof.
  destruct x; simpl; intros H; try discriminate; reflexivity.
Qed.

(** X15. A nan deviation is not ordered with the others.  When the deviation
    of the first sample from a fret is nan, that sample is matched with the
    fret whatever the other samples hold; when it is not, the sample matched
    has a deviation that is not nan: a nan deviation of a later sample never
    wins. *)
Theorem find_nearest_fret_points_nan :
  forall (F : Type) (p : point) (rest : list point) (frets : list F),
    Forall (fun t => (length frets <= length (pt_deviation t))%nat)
           (p :: rest) ->
    exists matches : list (nat * point),
      find_nearest_fret_points (p :: rest) frets = Ok matches /\
      map fst matches = seq 0 (length frets) /\
      Forall (fun m =>
                (nth (fst m) (pt_deviation p) NaN = NaN -> snd m = p) /\
                (nth (fst m) (pt_deviation p) NaN <> NaN ->
                 nth (fst m) (pt_deviation (snd m)) NaN <> NaN))
             matches.
Proof.
  intros F p rest frets Hlen.
  destruct (comprehension_ok
              (fun '(i, _) =>
                 best <- py_min (deviation_key i) (p :: rest) ;; Ok (i, best))
              (fun (x : nat * F) (m : nat * point) =>
                 fst m = fst x /\
                 ((nth (fst x) (pt_deviation p) NaN = NaN -> snd m = p) /\
                  (nth (fst x) (pt_deviation p) NaN <> NaN ->
                   nth (fst x) (pt_deviation (snd m)) NaN <> NaN)))
              (enumerate frets)) as [matches [Hrun Hall]].
  - apply Forall_forall. intros [i fr] Hin. apply enumerate_index in Hin.
    assert (Hkeys : Forall (fun t => deviation_key i t
                                     = Ok (abs_deviation i t)) (p :: rest)).
    { eapply Forall_impl; [|exact Hlen]. simpl. intros t Ht.
      apply deviation_key_ok. lia. }
    inversion Hkeys as [|? ? Hp Hrest]; subst.
    cbn [py_min]. rewrite Hp. cbn [bind].
    destruct (min_scan_cases (deviation_key i) rest p (abs_deviation i p))
      as [(r & Hr & _ & _)|(t & err & Ht & Hkey & _)].
    + exists (i, r). rewrite Hr. cbn [bind fst snd].
      split; [reflexivity|]. split; [reflexivity|]. split.
      * intros Hnan. unfold abs_deviation in Hr. rewrite Hnan in Hr.
        simpl np_abs in Hr. rewrite min_scan_nan in Hr.
        -- now injection Hr as <-.
        -- eapply Forall_impl; [|exact Hrest]. simpl. eauto.
      * intros Hnum Hnan.
        apply (min_scan_not_nan (deviation_key i) (abs_deviation i) rest p r);
          try assumption.
        -- intros H. apply np_abs_nan_inv in H. contradiction.
        -- unfold abs_deviation. now rewrite Hnan.
    + rewrite Forall_forall in Hrest. rewrite (Hrest t Ht) in Hkey.
      discriminate.
  - exists matches. split; [exact Hrun|].
    destruct (Forall2_fst
                (fun i best =>
                   (nth i (pt_deviation p) NaN = NaN -> best = p) /\
                   (nth i (pt_deviation p) NaN <> NaN ->
                    nth i (pt_deviation best) NaN <> NaN))
                (enumerate frets) matches Hall) as [Hfst HP].
    rewrite enumerate_fst in Hfst. auto.
Qed.

Lemma find_nearest_fret_points_nan_witness :
  exists matches : list (nat * point),
    find_nearest_fret_points (nan_sample :: tie_samples) [36.37; 70.70]
    = Ok matches /\
    map fst matches = seq 0 2 /\
    Forall (fun m =>
              (nth (fst m) (pt_deviation nan_sample) NaN = NaN ->
               snd m = nan_sample) /\
              (nth (fst m) (pt_deviation nan_sample) NaN <> NaN ->
               nth (fst m) (pt_deviation (snd m)) NaN <> NaN))
           matches.
Proof.
  apply (find_nearest_fret_points_nan R nan_sample tie_samples [36.37; 70.70]).
  repeat constructor.
Defined.

(** With a sample of nan deviations in front, every fret is matched with
    it. *)
Example find_nearest_fret_points_nan_first :
  find_nearest_fret_points (nan_sample :: tie_samples) [36.37; 70.70]
  = Ok [(0%nat, nan_sample); (1%nat, nan_sample)].
Proof. reflexivity. Qed.

Lemma Rabs_le_0 (u : R) : Rabs u <= 0 -> u = 0.
Proof.
  unfold Rabs. destruct (Rcase_abs u); lra.
Qed.

(** X16. On a non-empty sample set that covers the frets, a fret that some
    sample hits exactly (deviation zero) is matched with a sample of
    deviation zero. *)
Theorem find_nearest_fret_points_exact :
  forall (F : Type) (points : list point) (frets : list F),
    points <> [] ->
    Forall (covers_frets (length frets)) points ->
    exists matches : list (nat * point),
      find_nearest_fret_points points frets = Ok matches /\
      Forall (fun m =>
                (exists t : point,
                    In t points /\
                    nth (fst m) (pt_deviation t) NaN = Num 0) ->
                nth (fst m) (pt_deviation (snd m)) NaN = Num 0)
             matches.
Proof.
  intros F points frets Hne Hcov.
  destruct (matcher_first_minimum F points frets Hne Hcov)
    as (matches & Hrun & Hfst & Hmin).
  exists matches. split; [exact Hrun|].
  rewrite Forall_forall in *. intros m Hm [t [Ht Hzero]].
  assert (Hi : (fst m < length frets)%nat).
  { apply (in_map fst) in Hm. rewrite Hfst in Hm. apply in_seq in Hm. lia. }
  pose proof (Hmin m Hm) as Hfirst.
  pose proof (first_minimum_In _ _ _ Hfirst) as Hbest.
  destruct (deviation_key_keyed (length frets) (fst m) (snd m) Hi
              (Hcov _ Hbest)) as [_ Hnum].
  pose proof (first_minimum_le _ _ _ Hfirst Hnum t Ht) as Hle.
  unfold abs_deviation in Hle, Hnum. rewrite Hzero in Hle.
  destruct (nth (fst m) (pt_deviation (snd m)) NaN) as [u|n|];
    simpl in Hle; try discriminate.
  apply Rleb_true in Hle. rewrite Rabs_R0 in Hle.
  f_equal. now apply Rabs_le_0.
Qed.

Lemma find_nearest_fret_points_exact_witness :
  exists matches : list (nat * point),
    find_nearest_fret_points [tie_sample 3 0; tie_sample 0 4] [36.37; 70.70]
    = Ok matches /\
    Forall (fun m =>
              (exists t : point,
                  In t [tie_sample 3 0; tie_sample 0 4] /\
                  nth (fst m) (pt_deviation t) NaN = Num 0) ->
              nth (fst m) (pt_deviation (snd m)) NaN = Num 0)
           matches.
Proof.
  apply (find_nearest_fret_points_exact R [tie_sample 3 0; tie_sample 0 4]
           [36.37; 70.70]).
  - discriminate.
  - repeat constructor; simpl; try lia; discriminate.
Defined.

(** ** The samples of the sweep *)

Lemma side_at_bounds (beta : R) :
  (Main.b - Main.a) ^ 2 <= side_at beta <= (Main.a + Main.b) ^ 2.
Proof.
  unfold side_at. pose proof (COS_bound (gamma_at beta * (PI / 180))) as Hc.
  unfold Main.a, Main.b. split; lra.
Qed.

Lemma sample_value (frets : list R) (ms : Z) (beta : R) :
  get_micros_as_degree (IZR ms) 10.0 180.0 = Ok beta ->
  Main.sample frets ms
  = Ok (mkpoint (Num (displacement_at beta)) (Num (sqrt (side_at beta)))
          (Num (alpha_at beta)) (Num beta) (Num (gamma_at beta))
          (map (fun fr => Num (displacement_at beta - fr)) frets)).
Proof.
  intros Hbeta. unfold Main.sample. rewrite Hbeta. cbn [bind].
  rewrite calculate_alpha_arm. cbn [bind].
  fold (alpha_at beta).
  change (np_sub (np_sub (Num 180.0) (Num (alpha_at beta))) (Num beta))
    with (Num (gamma_at beta)).
  change (np_sub (Num (Main.a ^ 2 + Main.b ^ 2))
            (np_mul (Num (2 * Main.a * Main.b))
                    (np_cos (np_deg2rad (Num (gamma_at beta))))))
    with (Num (side_at beta)).
  pose proof (side_at_bounds beta) as [Hlow _].
  assert (Hpos : 0 <= side_at beta).
  { unfold Main.a, Main.b in Hlow. lra. }
  rewrite (np_pow_half_num _ Hpos).
  change (np_square (Num (sqrt (side_at beta))))
    with (Num (sqrt (side_at beta) * sqrt (side_at beta))).
  rewrite sqrt_sqrt by assumption.
  change (np_sub (Num (side_at beta)) (Num (Main.e ^ 2)))
    with (Num (side_at beta - Main.e ^ 2)).
  rewrite np_pow_half_num; [reflexivity|].
  unfold Main.a, Main.b in Hlow. unfold Main.e. lra.
Qed.

(** The pulse width [10 * k] is the angle of [k] degrees. *)
Lemma sweep_angle (k : nat) :
  get_micros_as_degree (IZR (10 * Z.of_nat k)) 10.0 180.0 = Ok (INR k).
Proof.
  unfold get_micros_as_degree.
  rewrite mult_IZR, <- INR_IZR_INZ.
  pose proof (pos_INR k) as Hk.
  destruct (Rlt_dec 0 (10 * INR k)) as [Hpos|Hzero].
  - rewrite py_div_ok by lra. cbn [bind]. rewrite py_div_ok by lra.
    f_equal. lra.
  - f_equal. lra.
Qed.

Lemma asin_le (x y : R) : -1 <= x -> x <= y -> y <= 1 -> asin x <= asin y.
Proof.
  intros Hx Hxy Hy.
  destruct (Rle_or_lt (asin x) (asin y)) as [H|H]; [assumption|].
  pose proof (asin_bound x) as [? ?]. pose proof (asin_bound y) as [? ?].
  apply sin_increasing_1 in H; try assumption.
  rewrite !sin_asin in H by lra. lra.
Qed.

Lemma radians_bounds (beta : R) :
  0 <= beta <= 180 -> 0 <= beta * (PI / 180) <= PI.
Proof.
  intros [Hl Hu]. pose proof PI_RGT_0 as Hpi.
  assert (Hk : 0 < PI / 180) by (apply Rdiv_lt_0_compat; lra).
  split; [nra|].
  replace PI with (180 * (PI / 180)) at 2 by (field; lra). nra.
Qed.

(** Between 0 and 180 degrees the three angles are those of a triangle. *)
Lemma alpha_at_bounds (beta : R) :
  0 <= beta <= 180 -> 0 <= alpha_at beta < 90.
Proof.
  intros Hb. pose proof (radians_bounds beta Hb) as [Hl Hu].
  pose proof (sin_ge_0 _ Hl Hu) as Hs.
  pose proof (SIN_bound (beta * (PI / 180))) as [_ Hs1].
  pose proof PI_RGT_0 as Hpi.
  assert (Hk : 0 < 180 / PI) by (apply Rdiv_lt_0_compat; lra).
  set (u := Main.a * sin (beta * (PI / 180)) / Main.b).
  assert (Hu0 : 0 <= u < 1).
  { unfold u, Main.a, Main.b. split; lra. }
  unfold alpha_at. fold u. split.
  - apply Rmult_le_pos; [|lra].
    rewrite <- asin_0. apply asin_le; lra.
  - pose proof (asin_bound_lt u) as [_ Hlt]; [lra|].
    replace 90 with (PI / 2 * (180 / PI)) by (field; lra).
    now apply Rmult_lt_compat_r.
Qed.

Lemma gamma_at_bounds (beta : R) :
  0 <= beta <= 180 -> 0 <= gamma_at beta <= 180.
Proof.
  intros Hb. pose proof (alpha_at_bounds beta Hb) as [Ha0 Ha90].
  unfold gamma_at. split; [|lra].
  destruct (Rle_or_lt beta 90) as [Hle|Hgt]; [lra|].
  (* beyond 90 degrees, [alpha] is at most the supplement of [beta] *)
  assert (Halpha : alpha_at beta <= 180 - beta); [|lra].
  pose proof PI_RGT_0 as Hpi.
  assert (Hk : 0 < 180 / PI) by (apply Rdiv_lt_0_compat; lra).
  assert (Hsup : 0 <= 180 - beta <= 180) by lra.
  pose proof (radians_bounds _ Hsup) as [Hl Hu].
  pose proof (sin_ge_0 _ Hl Hu) as Hs.
  pose proof (SIN_bound ((180 - beta) * (PI / 180))) as [_ Hs1].
  unfold alpha_at. rewrite <- sin_supplementary.
  set (x := (180 - beta) * (PI / 180)) in *.
  assert (Hx : - (PI / 2) <= x <= PI / 2).
  { split; [lra|]. unfold x.
    replace (PI / 2) with (90 * (PI / 180)) by (field; lra).
    assert (0 < PI / 180) by (apply Rdiv_lt_0_compat; lra). nra. }
  replace (180 - beta) with (x * (180 / PI))
    by (unfold x; field; lra).
  apply Rmult_le_compat_r; [lra|].
  rewrite <- (asin_sin x Hx) at 2.
  apply asin_le; [|unfold Main.a, Main.b; lra|lra].
  unfold Main.a, Main.b. lra.
Qed.

(** The sample set in closed form: one sample per degree from 0 to 180. *)
Lemma points_value :
  Main.points
  = Ok (map (fun k => sample_at theoretical_frets (INR k)) (seq 0 181)).
Proof.
  unfold Main.points, Main.frets. rewrite fret_positions_ok. cbn [bind].
  rewrite pulse_widths_value. cbn [bind]. fold theoretical_frets.
  unfold sweep.
  rewrite comprehension_map
    with (g := fun ms => sample_at theoretical_frets (IZR ms / 10)).
  - rewrite map_map. f_equal. apply map_ext. intros k.
    rewrite mult_IZR, <- INR_IZR_INZ. f_equal. field.
  - intros ms Hms. apply in_map_iff in Hms. destruct Hms as [k [<- _]].
    rewrite (sample_value _ _ (INR k)) by apply sweep_angle.
    rewrite mult_IZR, <- INR_IZR_INZ.
    now replace (10 * INR k / 10) with (INR k) by field.
Qed.

Lemma sweep_degrees (k : nat) : In k (seq 0 181) -> 0 <= INR k <= 180.
Proof.
  intros Hk. apply in_seq in Hk. split; [apply pos_INR|].
  replace 180 with (INR 180) by (rewrite INR_IZR_INZ; reflexivity).
  apply le_INR. lia.
Qed.

Lemma Forall2_map_r {A B : Type} (P : A -> B -> Prop) (f : A -> B)
    (l : list A) :
  (forall x, In x l -> P x (f x)) -> Forall2 P l (map f l).
Proof.
  induction l as [|x l IH]; intros H; simpl; constructor.
  - apply H. now left.
  - apply IH. intros y Hy. apply H. now right.
Qed.

(** X17. The sweep takes the servo angle through the whole degrees: sample
    [k] (k = 0 .. 180) has [beta = k], and its other angles are those of a
    triangle, [0 <= alpha < 90] and [0 <= gamma <= 180]. *)
Theorem points_angles :
  exists points : list point,
    Main.points = Ok points /\
    Forall2 (fun (k : nat) (p : point) =>
               pt_beta p = Num (INR k) /\
               exists alpha gamma : R,
                 pt_alpha p = Num alpha /\ pt_gamma p = Num gamma /\
                 0 <= alpha < 90 /\ 0 <= gamma <= 180)
            (seq 0 181) points.
Proof.
  eexists. split; [apply points_value|].
  apply Forall2_map_r. intros k Hk. apply sweep_degrees in Hk.
  split; [reflexivity|].
  exists (alpha_at (INR k)), (gamma_at (INR k)).
  repeat split; try apply alpha_at_bounds; try apply gamma_at_bounds;
    assumption.
Qed.

Lemma sqrt_side_at (beta : R) :
  Main.b - Main.a <= sqrt (side_at beta) <= Main.a + Main.b.
Proof.
  pose proof (side_at_bounds beta) as [Hl Hu].
  assert (Hba : 0 <= Main.b - Main.a) by (unfold Main.a, Main.b; lra).
  assert (Hab : 0 <= Main.a + Main.b) by (unfold Main.a, Main.b; lra).
  pose proof (sqrt_le_1_alt _ _ Hl) as Hlow.
  pose proof (sqrt_le_1_alt _ _ Hu) as Hup.
  rewrite sqrt_pow2 in Hlow, Hup by assumption. now split.
Qed.

Lemma displacement_at_bounds (beta : R) :
  sqrt ((Main.b - Main.a) ^ 2 - Main.e ^ 2) - Main.f_offset
  <= displacement_at beta
  <= sqrt ((Main.a + Main.b) ^ 2 - Main.e ^ 2) - Main.f_offset.
Proof.
  pose proof (side_at_bounds beta) as [Hl Hu]. unfold displacement_at.
  split; apply Rplus_le_compat_r, sqrt_le_1_alt; lra.
Qed.

Lemma displacement_at_range (beta : R) :
  0 < displacement_at beta < Main.mensur.
Proof.
  pose proof (side_at_bounds beta) as [Hl Hu]. unfold displacement_at.
  assert (H50 : sqrt (50 * 50) < sqrt (side_at beta - Main.e ^ 2)).
  { apply sqrt_lt_1_alt. unfold Main.a, Main.b, Main.e in *. lra. }
  rewrite sqrt_square in H50 by lra.
  assert (H500 : sqrt (side_at beta - Main.e ^ 2) <= sqrt (500 * 500)).
  { apply sqrt_le_1_alt. unfold Main.a, Main.b, Main.e in *. lra. }
  rewrite sqrt_square in H500 by lra.
  unfold Main.f_offset, Main.mensur. lra.
Qed.

(** X18. Every sample is a solution of the linkage: [c] is the third side of
    the triangle of sides [a] and [b] with the angle [gamma] between them,
    so it lies between [b - a] and [a + b]; [f + f_offset] and [e] are the
    legs of a right triangle of hypotenuse [c]; and the displacement [f] is
    positive and below the scale length. *)
Theorem points_geometry :
  exists points : list point,
    Main.points = Ok points /\
    Forall (fun p =>
              exists f c gamma : R,
                pt_f p = Num f /\ pt_c p = Num c /\ pt_gamma p = Num gamma /\
                c ^ 2 = Main.a ^ 2 + Main.b ^ 2
                        - 2 * Main.a * Main.b * cos (gamma * (PI / 180)) /\
                Main.b - Main.a <= c <= Main.a + Main.b /\
                (f + Main.f_offset) ^ 2 + Main.e ^ 2 = c ^ 2 /\
                0 < f < Main.mensur)
           points.
Proof.
  eexists. split; [apply points_value|].
  apply Forall_forall. intros p Hp. apply in_map_iff in Hp.
  destruct Hp as [k [<- _]]. set (beta := INR k).
  exists (displacement_at beta), (sqrt (side_at beta)), (gamma_at beta).
  pose proof (side_at_bounds beta) as [Hl Hu].
  assert (Hpos : 0 <= side_at beta).
  { unfold Main.a, Main.b in Hl. lra. }
  assert (Hleg : 0 <= side_at beta - Main.e ^ 2).
  { unfold Main.a, Main.b in Hl. unfold Main.e. lra. }
  repeat split; try reflexivity.
  - now rewrite pow2_sqrt.
  - apply sqrt_side_at.
  - apply sqrt_side_at.
  - unfold displacement_at.
    replace (sqrt (side_at beta - Main.e ^ 2) - Main.f_offset
             + Main.f_offset)
      with (sqrt (side_at beta - Main.e ^ 2)) by ring.
    rewrite !pow2_sqrt by assumption. ring.
  - apply displacement_at_range.
  - apply displacement_at_range.
Qed.

Lemma INR_180 : INR 180 = 180.
Proof.
  rewrite INR_IZR_INZ. reflexivity.
Qed.

Lemma alpha_at_flat (beta : R) :
  sin (beta * (PI / 180)) = 0 -> alpha_at beta = 0.
Proof.
  intros Hs. unfold alpha_at. rewrite Hs.
  replace (Main.a * 0 / Main.b) with 0 by (unfold Rdiv; ring).
  rewrite asin_0. ring.
Qed.

(** The arm stretched out, at 0 degrees, and folded back, at 180. *)
Lemma triangle_at_0 :
  alpha_at 0 = 0 /\ gamma_at 0 = 180 /\
  side_at 0 = (Main.a + Main.b) ^ 2.
Proof.
  assert (Ha : alpha_at 0 = 0).
  { apply alpha_at_flat. rewrite Rmult_0_l. apply sin_0. }
  assert (Hg : gamma_at 0 = 180) by (unfold gamma_at; lra).
  repeat split; try assumption.
  unfold side_at. rewrite Hg.
  replace (180 * (PI / 180)) with PI by (field; apply PI_neq0).
  rewrite cos_PI. ring.
Qed.

Lemma triangle_at_180 :
  alpha_at 180 = 0 /\ gamma_at 180 = 0 /\
  side_at 180 = (Main.b - Main.a) ^ 2.
Proof.
  assert (Ha : alpha_at 180 = 0).
  { apply alpha_at_flat.
    replace (180 * (PI / 180)) with PI by (field; apply PI_neq0).
    apply sin_PI. }
  assert (Hg : gamma_at 180 = 0) by (unfold gamma_at; lra).
  repeat split; try assumption.
  unfold side_at. rewrite Hg, Rmult_0_l, cos_0. ring.
Qed.

(** X19. The sweep starts with the arm stretched out ([alpha = 0],
    [gamma = 180], [c = a + b]) and ends with the arm folded back
    ([alpha = 0], [gamma = 0], [c = b - a]); the displacement of every sample
    lies between that of the last sample and that of the first. *)
Theorem points_range :
  exists (points : list point) (first last : point),
    Main.points = Ok points /\
    hd_error points = Some first /\
    nth_error points 180 = Some last /\
    pt_alpha first = Num 0 /\ pt_gamma first = Num 180 /\
    pt_c first = Num (Main.a + Main.b) /\
    pt_alpha last = Num 0 /\ pt_gamma last = Num 0 /\
    pt_c last = Num (Main.b - Main.a) /\
    Forall (fun p =>
              np_le (pt_f last) (pt_f p) = true /\
              np_le (pt_f p) (pt_f first) = true)
           points.
Proof.
  destruct triangle_at_0 as (Ha0 & Hg0 & Hs0).
  destruct triangle_at_180 as (Ha180 & Hg180 & Hs180).
  assert (Hba : 0 <= Main.b - Main.a) by (unfold Main.a, Main.b; lra).
  assert (Hab : 0 <= Main.a + Main.b) by (unfold Main.a, Main.b; lra).
  exists (map (fun k => sample_at theoretical_frets (INR k)) (seq 0 181)),
    (sample_at theoretical_frets 0), (sample_at theoretical_frets 180).
  split; [apply points_value|]. split; [reflexivity|]. split.
  { rewrite nth_error_map, nth_error_seq.
    change (180 <? 181)%nat with true. cbn [option_map].
    now rewrite Nat.add_0_l, INR_180. }
  cbn [sample_at pt_alpha pt_gamma pt_c pt_f].
  rewrite Ha0, Hg0, Hs0, Ha180, Hg180, Hs180, !sqrt_pow2 by assumption.
  repeat split.
  apply Forall_forall. intros p Hp. apply in_map_iff in Hp.
  destruct Hp as [k [<- _]]. cbn [sample_at pt_f np_le].
  pose proof (displacement_at_bounds (INR k)) as [Hl Hu].
  rewrite <- Hs180 in Hl. rewrite <- Hs0 in Hu.
  split; now apply Rleb_true.
Qed.

(** ** The fret geometry, again *)

(** The table of frequencies in closed form. *)
Lemma fret_frequencies_value :
  Main.fret_frequencies
  = Ok (map (fun fq =>
               fq :: map (fun f => fq * Rpower 2 (INR f / 12))
                         (seq 1 Main.max_frets))
            Main.frequencies).
Proof.
  unfold Main.fret_frequencies, Main.frets. rewrite fret_positions_ok.
  cbn [bind].
  exact (fret_frequency_rows _ _ _
           (fun fq => fret_frequency_row fq Main.max_frets)
           Main.frequencies []).
Qed.

Lemma fret_positions_nth (L : R) (N i : nat) (frets : list R) (x : R) :
  fret_positions L N = Ok frets ->
  nth_error frets i = Some x ->
  (i < N)%nat /\ x = fret_distance L (1 + i).
Proof.
  rewrite fret_positions_ok. intros H. injection H as <-.
  rewrite nth_error_map, nth_error_seq.
  destruct (Nat.ltb_spec i N) as [Hi|Hi]; simpl; [|discriminate].
  intros H. now injection H as <-.
Qed.

Lemma fret_distance_12 (L : R) : fret_distance L 12 = L / 2.
Proof.
  unfold fret_distance. rewrite half_step_factor_twelfth_root. field.
Qed.

(** X20. The twelfth fret is the octave: it lies at half of the scale
    length, for every scale length, and in the table of the script the
    frequency of every string at fret 12 is twice its open frequency. *)
Theorem twelfth_fret_octave :
  (forall (L : R) (N : nat),
      (12 <= N)%nat ->
      exists frets : list R,
        fret_positions L N = Ok frets /\
        nth_error frets 11 = Some (L / 2)) /\
  (exists table : list (list R),
      Main.fret_frequencies = Ok table /\
      Forall2 (fun fq row => nth_error row 12 = Some (2 * fq))
              Main.frequencies table).
Proof.
  split.
  - intros L N HN. exists (map (fret_distance L) (seq 1 N)).
    split; [apply fret_positions_ok|].
    rewrite nth_error_map, nth_error_seq.
    destruct (Nat.ltb_spec 11 N) as [_|Hge]; [|lia].
    cbn [option_map]. change (1 + 11)%nat with 12%nat.
    now rewrite fret_distance_12.
  - eexists. split; [apply fret_frequencies_value|].
    apply Forall2_map_r. intros fq _.
    change (nth_error (fq :: map (fun f => fq * Rpower 2 (INR f / 12))
                                 (seq 1 Main.max_frets)) 12)
      with (nth_error (map (fun f => fq * Rpower 2 (INR f / 12))
                           (seq 1 Main.max_frets)) 11).
    rewrite nth_error_map, nth_error_seq.
    change (11 <? Main.max_frets)%nat with true. cbn [option_map].
    change (1 + 11)%nat with 12%nat.
    rewrite <- half_step_factor_pow, half_step_factor_twelfth_root.
    f_equal. ring.
Qed.

Lemma twelfth_fret_octave_witness :
  exists frets : list R,
    fret_positions 648 13 = Ok frets /\ nth_error frets 11 = Some (648 / 2).
Proof.
  apply (proj1 twelfth_fret_octave 648 13%nat). lia.
Defined.

(** X21. The frets draw together geometrically: the gap between two
    neighbouring frets is the gap before it divided by the semitone ratio,
    so on a positive scale length every gap is positive and smaller than the
    one before. *)
Theorem fret_spacing :
  forall (L : R) (N i : nat) (frets : list R) (x y z : R),
    fret_positions L N = Ok frets ->
    nth_error frets i = Some x ->
    nth_error frets (i + 1) = Some y ->
    nth_error frets (i + 2) = Some z ->
    (z - y) * half_step_factor = y - x /\
    (0 < L -> 0 < z - y < y - x).
Proof.
  intros L N i frets x y z Hf Hx Hy Hz.
  apply (fret_positions_nth _ _ _ _ _ Hf) in Hx, Hy, Hz.
  destruct Hx as [_ ->], Hy as [_ ->], Hz as [_ ->].
  replace (1 + (i + 1))%nat with (S (1 + i)) by lia.
  replace (1 + (i + 2))%nat with (S (S (1 + i))) by lia.
  unfold fret_distance. cbn [pow].
  pose proof (half_step_pow_pos (1 + i)) as Hp.
  pose proof half_step_factor_gt_1 as Hr.
  remember (half_step_factor ^ (1 + i)) as p eqn:Ep. clear Ep.
  remember half_step_factor as r eqn:Er. clear Er.
  assert (Hgap : (L - L / (r * (r * p)) - (L - L / (r * p))) * r
                 = L - L / (r * p) - (L - L / p)) by (field; lra).
  split; [exact Hgap|]. intros HL.
  assert (Hyx : 0 < L - L / (r * p) - (L - L / p)).
  { replace (L - L / (r * p) - (L - L / p))
      with (L * (r - 1) / (r * p)) by (field; lra).
    apply Rdiv_lt_0_compat; nra. }
  set (g := L - L / (r * (r * p)) - (L - L / (r * p))) in *.
  nra.
Qed.

Lemma fret_spacing_witness :
  (fret_distance 648 3 - fret_distance 648 2) * half_step_factor
  = fret_distance 648 2 - fret_distance 648 1 /\
  (0 < 648 ->
   0 < fret_distance 648 3 - fret_distance 648 2
     < fret_distance 648 2 - fret_distance 648 1).
Proof.
  apply (fret_spacing 648 3%nat 0%nat (map (fret_distance 648) (seq 1 3))).
  - apply fret_positions_ok.
  - reflexivity.
  - reflexivity.
  - reflexivity.
Defined.

(** ** The report *)

Lemma cents_zero_iff (f1 f2 : R) :
  0 < f1 -> 0 < f2 ->
  (1200 * log2 (Rmax f1 f2 / Rmin f1 f2) = 0 <-> f1 = f2).
Proof.
  intros H1 H2. split.
  - intros H.
    assert (Hmin : 0 < Rmin f1 f2) by now apply Rmin_glb_lt.
    assert (Hmax : 0 < Rmax f1 f2).
    { pose proof (Rminmax f1 f2). lra. }
    assert (Hr : Rmax f1 f2 / Rmin f1 f2 = 1).
    { apply log2_eq_0; [now apply Rdiv_lt_0_compat|lra]. }
    assert (He : Rmax f1 f2 = Rmin f1 f2).
    { apply (Rmult_eq_compat_r (Rmin f1 f2)) in Hr.
      unfold Rdiv in Hr. rewrite Rmult_assoc, Rinv_l in Hr by lra. lra. }
    pose proof (Rmax_l f1 f2). pose proof (Rmax_r f1 f2).
    pose proof (Rmin_l f1 f2). pose proof (Rmin_r f1 f2). lra.
  - intros <-. rewrite Rmax_left, Rmin_left by lra.
    replace (f1 / f1) with 1 by (field; lra).
    rewrite log2_1. ring.
Qed.

Lemma enumerate_nth_error {A : Type} (l : list A) (i : nat) (x : A) :
  In (i, x) (enumerate l) -> nth_error l i = Some x.
Proof.
  unfold enumerate.
  assert (H : forall s : nat,
            In (i, x) (combine (seq s (length l)) l) ->
            (s <= i)%nat /\ nth_error l (i - s) = Some x).
  { induction l as [|y l IH]; intros s; simpl; [contradiction|].
    intros [Heq|Hin].
    - injection Heq as <- <-. rewrite Nat.sub_diag. auto.
    - destruct (IH (S s) Hin) as [Hle Hnth]. split; [lia|].
      replace (i - s)%nat with (S (i - S s)) by lia. exact Hnth. }
  intros Hin. destruct (H 0%nat Hin) as [_ Hnth].
  now rewrite Nat.sub_0_r in Hnth.
Qed.

Lemma matches_nth {B : Type} (matches : list (nat * B)) (n i : nat) :
  map fst matches = seq 0 n -> (i < n)%nat ->
  exists m : nat * B, nth_error matches i = Some m /\ fst m = i.
Proof.
  intros Hfst Hi.
  assert (H : nth_error (map fst matches) i = Some i).
  { rewrite Hfst, nth_error_seq.
    destruct (Nat.ltb_spec i n); [reflexivity|lia]. }
  rewrite nth_error_map in H.
  destruct (nth_error matches i) as [m|]; simpl in H; [|discriminate].
  injection H as H. exists m. auto.
Qed.

Lemma theoretical_frets_ok : Main.frets = Ok theoretical_frets.
Proof.
  unfold Main.frets. apply fret_positions_ok.
Qed.

Lemma sample_at_covers (beta : R) :
  covers_frets (length theoretical_frets) (sample_at theoretical_frets beta).
Proof.
  unfold covers_frets. cbn [sample_at pt_deviation]. split.
  - now rewrite length_map.
  - apply Forall_forall. intros d Hd. apply in_map_iff in Hd.
    destruct Hd as [fr [<- _]]. discriminate.
Qed.

(** The matches of the script are samples of the sweep. *)
Lemma nearest_fret_points_ok :
  exists matches : list (nat * point),
    Main.nearest_fret_points = Ok matches /\
    map fst matches = seq 0 Main.max_frets /\
    Forall (fun m => exists beta : R,
                snd m = sample_at theoretical_frets beta)
           matches.
Proof.
  set (points := map (fun k => sample_at theoretical_frets (INR k))
                     (seq 0 181)).
  destruct (matcher_first_minimum R points theoretical_frets)
    as (matches & Hrun & Hfst & Hmin).
  - discriminate.
  - apply Forall_forall. intros p Hp. apply in_map_iff in Hp.
    destruct Hp as [k [<- _]]. apply sample_at_covers.
  - exists matches. unfold Main.nearest_fret_points.
    rewrite theoretical_frets_ok, points_value. cbn [bind].
    split; [exact Hrun|]. split; [exact Hfst|].
    eapply Forall_impl; [|exact Hmin]. simpl. intros m Hm.
    apply first_minimum_In in Hm. apply in_map_iff in Hm.
    destruct Hm as [k [<- _]]. eauto.
Qed.

(** The frequency of the open string [fq] stopped at the displacement [d]
    short of the scale length. *)
Lemma stopped_frequency (fq d : R) :
  d < Main.mensur ->
  np_div (Num (Main.mensur / 1000.0 * 2 * fq))
    (np_mul (np_div (np_sub (Num Main.mensur) (Num d)) (Num 1000.0)) (Num 2))
  = Num (Main.mensur / 1000.0 * 2 * fq / ((Main.mensur - d) / 1000.0 * 2)).
Proof.
  intros Hd.
  change (np_sub (Num Main.mensur) (Num d)) with (Num (Main.mensur - d)).
  rewrite np_div_num by lra. cbn [np_mul].
  apply np_div_num. lra.
Qed.

Lemma fret_frequency_stopped (fq : R) (f : nat) :
  fq * Rpower 2 (INR f / 12)
  = Main.mensur / 1000.0 * 2 * fq
    / ((Main.mensur - fret_distance Main.mensur f) / 1000.0 * 2).
Proof.
  rewrite <- half_step_factor_pow. unfold fret_distance, Main.mensur.
  pose proof (half_step_pow_pos f) as Hf.
  remember (half_step_factor ^ f) as p eqn:Hp. clear Hp. field. lra.
Qed.

Lemma stopped_frequency_inj (fq d1 d2 : R) :
  0 < fq -> d1 < Main.mensur -> d2 < Main.mensur ->
  (Main.mensur / 1000.0 * 2 * fq / ((Main.mensur - d1) / 1000.0 * 2)
   = Main.mensur / 1000.0 * 2 * fq / ((Main.mensur - d2) / 1000.0 * 2)
   <-> d1 = d2).
Proof.
  intros Hfq H1 H2. split; [|now intros ->].
  unfold Main.mensur in *. intros H.
  assert (Hw : 0 < 648.00 / 1000.0 * 2 * fq) by lra.
  remember (648.00 / 1000.0 * 2 * fq) as ws eqn:Ews. clear Ews.
  assert (HA : 0 < (648.00 - d1) / 1000.0 * 2) by lra.
  assert (HB : 0 < (648.00 - d2) / 1000.0 * 2) by lra.
  remember ((648.00 - d1) / 1000.0 * 2) as A eqn:EA.
  remember ((648.00 - d2) / 1000.0 * 2) as B eqn:EB.
  assert (E : ws * B = ws * A).
  { replace (ws * B) with (ws / A * (A * B)) by (field; lra).
    rewrite H. field. lra. }
  apply Rmult_eq_reg_l in E; lra.
Qed.

Lemma open_string_row :
  getitem
    (map (fun fq =>
            fq :: map (fun f => fq * Rpower 2 (INR f / 12))
                      (seq 1 Main.max_frets))
         Main.frequencies)
    Main.string_ind
  = Ok (82.41 :: map (fun f => 82.41 * Rpower 2 (INR f / 12))
                     (seq 1 Main.max_frets)).
Proof. reflexivity. Qed.

Lemma open_string_speed :
  getitem Main.wave_speeds Main.string_ind
  = Ok (Main.mensur / 1000.0 * 2 * 82.41).
Proof. reflexivity. Qed.

(** The line of the report for fret [i + 1], matched with the sample of the
    servo angle [beta]. *)
Lemma report_line_ok (matches : list (nat * point)) (i : nat)
    (m : nat * point) (beta : R) :
  (i < Main.max_frets)%nat ->
  nth_error matches i = Some m ->
  snd m = sample_at theoretical_frets beta ->
  exists (r : Main.report_row) (f2 cent : R),
    Main.report_line
      (map (fun fq =>
              fq :: map (fun f => fq * Rpower 2 (INR f / 12))
                        (seq 1 Main.max_frets))
           Main.frequencies)
      matches (i, fret_distance Main.mensur (1 + i))
    = Ok r /\
    Main.row_fret r = (i + 1)%nat /\
    Main.row_actual r = fret_distance Main.mensur (1 + i) /\
    Main.row_nearest r = Num (displacement_at beta) /\
    Main.row_f2 r = Num f2 /\
    Main.row_cent_diff r = Num cent /\
    0 < Main.row_f1 r /\ 0 < f2 /\ 0 <= cent /\
    (cent = 0 <-> displacement_at beta = fret_distance Main.mensur (1 + i)).
Proof.
  intros Hi Hm Hbest.
  pose proof (displacement_at_range beta) as [Hd0 Hd].
  assert (Hfret : fret_distance Main.mensur (1 + i) < Main.mensur).
  { apply fret_distance_bounds; [unfold Main.mensur; lra|lia]. }
  set (f1 := 82.41 * Rpower 2 (INR (1 + i) / 12)).
  set (f2 := Main.mensur / 1000.0 * 2 * 82.41
             / ((Main.mensur - displacement_at beta) / 1000.0 * 2)).
  assert (Hf1 : 0 < f1).
  { unfold f1. apply Rmult_lt_0_compat; [lra|]. unfold Rpower. apply exp_pos. }
  assert (Hf2 : 0 < f2).
  { unfold f2. apply Rdiv_lt_0_compat; unfold Main.mensur in *; lra. }
  unfold Main.report_line. rewrite open_string_speed. cbn [bind].
  rewrite open_string_row. cbn [bind].
  assert (Hrow : getitem
                   (82.41 :: map (fun f => 82.41 * Rpower 2 (INR f / 12))
                                 (seq 1 Main.max_frets)) (i + 1)
                 = Ok f1).
  { rewrite Nat.add_1_r. unfold getitem. cbn [nth_error].
    rewrite nth_error_map, nth_error_seq.
    destruct (Nat.ltb_spec i Main.max_frets) as [_|Hge]; [reflexivity|lia]. }
  rewrite Hrow. cbn [bind]. unfold getitem at 1. rewrite Hm. cbn [bind].
  rewrite Hbest. cbn [sample_at pt_f pt_alpha pt_beta pt_gamma].
  rewrite stopped_frequency by assumption. fold f2.
  rewrite cent_difference_value by assumption. cbn [bind].
  eexists. exists f2, (1200 * log2 (Rmax f1 f2 / Rmin f1 f2)).
  split; [reflexivity|].
  cbn [Main.row_fret Main.row_actual Main.row_nearest Main.row_f1 Main.row_f2
       Main.row_cent_diff].
  repeat split; try assumption.
  - apply Rmult_le_pos; [lra|]. apply log2_nonneg.
    now apply Rmax_over_Rmin.
  - intros Hzero. apply (proj1 (cents_zero_iff f1 f2 Hf1 Hf2)) in Hzero.
    unfold f1, f2 in Hzero. rewrite fret_frequency_stopped in Hzero.
    symmetry. apply (stopped_frequency_inj 82.41); try assumption; lra.
  - intros Heq. apply (proj2 (cents_zero_iff f1 f2 Hf1 Hf2)).
    unfold f1, f2. rewrite fret_frequency_stopped. now rewrite Heq.
Qed.

(** X22. The report loop completes with one row per fret, numbered 1 to 13.
    In every row the two frequencies are positive numbers, the difference in
    cents is a number that is not negative, and it is zero exactly when the
    displacement of the nearest sample is the position of the fret. *)
Theorem report_rows :
  exists rows : list Main.report_row,
    Main.report = Ok rows /\
    map Main.row_fret rows = seq 1 Main.max_frets /\
    Forall (fun r =>
              Main.row_actual r
              = Main.mensur - Main.mensur / half_step_factor ^ Main.row_fret r /\
              exists nearest f2 cent : R,
                Main.row_nearest r = Num nearest /\
                Main.row_f2 r = Num f2 /\
                Main.row_cent_diff r = Num cent /\
                0 < Main.row_f1 r /\ 0 < f2 /\ 0 <= cent /\
                (cent = 0 <-> nearest = Main.row_actual r))
           rows.
Proof.
  destruct nearest_fret_points_ok as (matches & Hnearest & Hfst & Hsamples).
  unfold Main.report.
  rewrite theoretical_frets_ok, fret_frequencies_value, Hnearest. cbn [bind].
  destruct (comprehension_ok
              (Main.report_line
                 (map (fun fq =>
                         fq :: map (fun f => fq * Rpower 2 (INR f / 12))
                                   (seq 1 Main.max_frets))
                      Main.frequencies)
                 matches)
              (fun (x : nat * R) (r : Main.report_row) =>
                 Main.row_fret r = (fst x + 1)%nat /\
                 (Main.row_actual r
                  = Main.mensur
                    - Main.mensur / half_step_factor ^ Main.row_fret r /\
                  exists nearest f2 cent : R,
                    Main.row_nearest r = Num nearest /\
                    Main.row_f2 r = Num f2 /\
                    Main.row_cent_diff r = Num cent /\
                    0 < Main.row_f1 r /\ 0 < f2 /\ 0 <= cent /\
                    (cent = 0 <-> nearest = Main.row_actual r)))
              (enumerate theoretical_frets)) as [rows [Hrun Hall]].
  - apply Forall_forall. intros [i f] Hin.
    pose proof (enumerate_index _ _ _ Hin) as Hi.
    apply enumerate_nth_error in Hin.
    unfold theoretical_frets in Hin, Hi.
    rewrite length_map, length_seq in Hi.
    rewrite nth_error_map, nth_error_seq in Hin.
    destruct (Nat.ltb_spec i Main.max_frets) as [_|Hge]; [|lia].
    cbn [option_map] in Hin. injection Hin as <-.
    destruct (matches_nth matches Main.max_frets i Hfst Hi) as [m [Hm _]].
    rewrite Forall_forall in Hsamples.
    destruct (Hsamples m (nth_error_In _ _ Hm)) as [beta Hbest].
    destruct (report_line_ok matches i m beta Hi Hm Hbest)
      as (r & f2 & cent & Hr & Hn & Ha & Hnear & Hf2 & Hc & H1 & H2 & H3 & H4).
    exists r. split; [exact Hr|]. cbn [fst]. split; [exact Hn|].
    split.
    + rewrite Ha, Hn. now rewrite Nat.add_comm.
    + exists (displacement_at beta), f2, cent. rewrite Ha. auto 10.
  - exists rows. split; [exact Hrun|]. split.
    + transitivity (map (fun x : nat * R => (fst x + 1)%nat)
                        (enumerate theoretical_frets)).
      * clear Hrun. induction Hall as [|x r l rs [Hn _] _ IH]; simpl;
          [reflexivity|]. now rewrite Hn, IH.
      * reflexivity.
    + clear Hrun. induction Hall as [|x r l rs [_ Hr] _ IH];
        constructor; assumption.
Qed.
